(** * mkversion: the version resolver of [mkversion.py], embedded and verified

    The script derives a build version string from the tag and branch names
    of a git checkout.  This file embeds its functions ([process], [is_ga],
    [is_same_base_version], [display] and the top-level driver) together with
    the two regular expressions it matches names against, and proves the
    properties stated about them. *)

From Stdlib Require Import ZArith List Ascii String Lia Bool.
From Stdlib Require Import Sorting.Sorted.
From stdpp Require Import base decidable option gmap.

Local Open Scope string_scope.
Local Open Scope list_scope.
Local Open Scope Z_scope.

(** ** Python byte strings

    A Python 2 [str] is a sequence of bytes: a list of 8-bit characters.
    String literals are read through [list_ascii_of_string]. *)

Abbreviation str := (list ascii) (only parsing).

Definition lit (s : string) : list ascii := list_ascii_of_string s.
Coercion lit : string >-> list.

Definition chr_eqb (a b : ascii) : bool := Ascii.eqb a b.

(** [\d] without the UNICODE flag: the ten ASCII digits. *)
Definition is_digit (c : ascii) : bool :=
  let n := nat_of_ascii c in (48 <=? n)%nat && (n <=? 57)%nat.

(** [string.whitespace], the characters [str.strip()] removes. *)
Definition is_space (c : ascii) : bool :=
  let n := nat_of_ascii c in (n =? 32)%nat || ((9 <=? n)%nat && (n <=? 13)%nat).

Definition newline : ascii := ascii_of_nat 10.

Fixpoint lstrip (s : str) : str :=
  match s with
  | c :: s' => if is_space c then lstrip s' else s
  | [] => []
  end.

Definition rstrip (s : str) : str := rev (lstrip (rev s)).

Definition strip (s : str) : str := rstrip (lstrip s).

Fixpoint startswith (s p : str) {struct p} : bool :=
  match p, s with
  | [], _ => true
  | a :: p', b :: s' => chr_eqb a b && startswith s' p'
  | _ :: _, [] => false
  end.

Definition endswith (s p : str) : bool := startswith (rev s) (rev p).

Definition str_eqb (a b : str) : bool := bool_decide (a = b).

(** ** [int] and [str] on decimal numerals *)

Definition digit_val (c : ascii) : Z := Z.of_nat (nat_of_ascii c) - 48.

Definition digit_chr (d : Z) : ascii := ascii_of_nat (Z.to_nat (d + 48)).

(** [int(x)] on a string of digits. *)
Definition int (x : str) : Z :=
  fold_left (fun acc c => 10 * acc + digit_val c) x 0.

(** The decimal digits of a non-negative number, most significant first. *)
Fixpoint digits_of (fuel : nat) (n : Z) (acc : str) : str :=
  match fuel with
  | O => acc
  | S fuel' =>
      let acc' := digit_chr (n mod 10) :: acc in
      if n <? 10 then acc' else digits_of fuel' (n / 10) acc'
  end.

Definition str_nonneg (n : Z) : str := digits_of (S (Z.to_nat (Z.log2 n))) n [].

(** [str(n)] for a Python integer. *)
Definition str_of_int (n : Z) : str :=
  if n <? 0 then "-"%char :: str_nonneg (- n) else str_nonneg n.

(** ** Version tuples

    Every tuple of the program has four components, each an integer or
    [None]: [process] builds four, [DEFAULT_MASTER_VERSION] has four. *)

Definition version : Type := option Z * option Z * option Z * option Z.

Definition DEFAULT_MASTER_VERSION : version := (Some 3, None, None, None).

(** [version[i]] for [i] in [0..3]. *)
Definition vget (v : version) (i : nat) : option Z :=
  let '(a, b, c, d) := v in
  match i with
  | O => a
  | 1%nat => b
  | 2%nat => c
  | _ => d
  end.

(** [l = list(version); l[i] = x; tuple(l)]. *)
Definition vset (v : version) (i : nat) (x : option Z) : version :=
  let '(a, b, c, d) := v in
  match i with
  | O => (x, b, c, d)
  | 1%nat => (a, x, c, d)
  | 2%nat => (a, b, x, d)
  | _ => (a, b, c, x)
  end.

Definition components (v : version) : list (option Z) :=
  let '(a, b, c, d) := v in [a; b; c; d].

(** ** [display] *)

Fixpoint display_loop (l : list (option Z)) (sep v : str) : str :=
  match l with
  | [] => v
  | None :: _ => v
  | Some n :: l' =>
      if n =? 0 then display_loop l' (sep ++ "0.") v
      else display_loop l' "." (v ++ sep ++ str_of_int n)
  end.

Definition display (v : version) : str := display_loop (components v) "" "".

(** ** Regular expressions

    The two patterns of the script use literals, [\d+], [.*], sequencing,
    alternation, numbered groups and the anchors.  [exec] is the backtracking
    matcher of Python's [re]: alternatives are tried left to right, [\d+] and
    [.*] are greedy and give characters back one at a time, and the groups
    recorded on an abandoned path are forgotten. *)

Inductive regex : Type :=
| Bol
| Eol
| Eps
| Chr (c : ascii)
| Digits
| AnyStar
| Seq (r1 r2 : regex)
| Alt (r1 r2 : regex)
| Group (n : nat) (r : regex).

(** A match object: group number to matched text; a group that did not
    take part in the match is absent ([m.group(i)] is [None]). *)
Abbreviation groups := (gmap nat (list ascii)) (only parsing).

Abbreviation cont := (nat -> list ascii -> gmap nat (list ascii) -> option (gmap nat (list ascii))) (only parsing).

Definition orelse {A} (x : option A) (y : option A) : option A :=
  match x with
  | Some a => Some a
  | None => y
  end.

Fixpoint star (p : ascii -> bool) (pos : nat) (s : str) (g : groups) (k : cont) : option groups :=
  match s with
  | c :: s' =>
      if p c then orelse (star p (S pos) s' g k) (k pos s g) else k pos s g
  | [] => k pos s g
  end.

Definition plus (p : ascii -> bool) (pos : nat) (s : str) (g : groups) (k : cont) : option groups :=
  match s with
  | c :: s' => if p c then star p (S pos) s' g k else None
  | [] => None
  end.

(** [.] matches everything but a newline. *)
Definition not_newline (c : ascii) : bool := negb (chr_eqb c newline).

Fixpoint exec (r : regex) (pos : nat) (s : str) (g : groups) (k : cont) : option groups :=
  match r with
  | Bol => if (pos =? 0)%nat then k pos s g else None
  | Eol =>
      match s with
      | [] => k pos s g
      | [c] => if chr_eqb c newline then k pos s g else None
      | _ => None
      end
  | Eps => k pos s g
  | Chr c =>
      match s with
      | c' :: s' => if chr_eqb c c' then k (S pos) s' g else None
      | [] => None
      end
  | Digits => plus is_digit pos s g k
  | AnyStar => star not_newline pos s g k
  | Seq r1 r2 => exec r1 pos s g (fun pos' s' g' => exec r2 pos' s' g' k)
  | Alt r1 r2 => orelse (exec r1 pos s g k) (exec r2 pos s g k)
  | Group n r =>
      exec r pos s g (fun pos' s' g' => k pos' s' (<[n := take (pos' - pos) s]> g'))
  end.

(** The continuation at the end of a pattern: the match object is the
    groups recorded so far. *)
Definition accept : cont := fun _ _ g => Some g.

(** [regexp.match(s)]: anchored at the start of [s]. *)
Definition re_match (r : regex) (s : str) : option groups :=
  exec r 0 s ∅ accept.

Declare Scope regex_scope.
Delimit Scope regex_scope with re.
Infix ">>" := Seq (at level 41, right associativity) : regex_scope.

Fixpoint Lit (s : str) : regex :=
  match s with
  | [] => Eps
  | c :: s' => Seq (Chr c) (Lit s')
  end.

(** [(\.(\d+)|)], numbered [n] with the inner group [n+1]. *)
Definition opt_component (n : nat) : regex :=
  Group n (Alt (Chr "." >> Group (S n) Digits) Eps)%re.

(** [(\d+)(\.(\d+)|)(\.(\d+)|)(\.(\d+)|)] *)
Definition components_re : regex :=
  (Group 1 Digits >> opt_component 2 >> opt_component 4 >> opt_component 6)%re.

(** [(GA)$] and [(\.x|\.next|-patch|)$], what follows the components in
    the two patterns. *)
Definition tag_tail : regex := (Group 8 (Lit "GA") >> Eol)%re.

Definition branch_tail : regex :=
  (Group 8 (Alt (Lit ".x") (Alt (Lit ".next") (Alt (Lit "-patch") Eps))) >> Eol)%re.

(** [^v(\d+)(\.(\d+)|)(\.(\d+)|)(\.(\d+)|)(GA)$] *)
Definition tag_regexp : regex :=
  (Bol >> Chr "v" >> components_re >> tag_tail)%re.

(** [^.*/(\d+)(\.(\d+)|)(\.(\d+)|)(\.(\d+)|)(\.x|\.next|-patch|)$] *)
Definition branch_regexp : regex :=
  (Bol >> AnyStar >> Chr "/" >> components_re >> branch_tail)%re.

(** ** The two classification dictionaries

    [is_dev_branch] and [is_ga_tag] only ever map a tuple to [True] and are
    only tested with [in]: they are sets of tuples.  The functions that
    write them run in a state monad over both. *)

Record classes : Type := Classes {
  is_dev_branch : gset version;
  is_ga_tag : gset version
}.

Definition no_classes : classes := Classes ∅ ∅.

Definition M (A : Type) : Type := classes -> A * classes.

Definition ret {A} (a : A) : M A := fun st => (a, st).

Definition bind {A B} (c : M A) (f : A -> M B) : M B :=
  fun st => let '(a, st') := c st in f a st'.

Notation "'do' x <- c ; k" := (bind c (fun x => k))
  (at level 10, x name, c at level 100, k at level 200).
Notation "'run' c ; k" := (bind c (fun _ => k))
  (at level 10, c at level 100, k at level 200).

Definition mark_dev (v : version) : M unit :=
  fun st => (tt, Classes ({[v]} ∪ is_dev_branch st) (is_ga_tag st)).

Definition mark_ga (v : version) : M unit :=
  fun st => (tt, Classes (is_dev_branch st) ({[v]} ∪ is_ga_tag st)).

Definition when (b : bool) (c : M unit) : M unit := if b then c else ret tt.

(** ** [process] *)

(** The loop [i = 1, 3, 5, 7] that collects [m.group(i)] as numbers. *)
Fixpoint process_loop (n i : nat) (m : groups) : list (option Z) :=
  match n with
  | O => []
  | S n' => (int <$> m !! i) :: process_loop n' (i + 2) m
  end.

Definition tuple (l : list (option Z)) : version :=
  (default None (l !! 0%nat), default None (l !! 1%nat),
   default None (l !! 2%nat), default None (l !! 3%nat)).

Definition group_in (x : option str) (l : list str) : bool :=
  match x with
  | Some s => existsb (str_eqb s) l
  | None => false
  end.

Definition process (m : option groups) : M (option version) :=
  match m with
  | None => ret None
  | Some m =>
      let result := tuple (process_loop 4 1 m) in
      run when (group_in (m !! 8%nat) [lit "-patch"; lit ".next"; lit ".x"]) (mark_dev result);
      run when (group_in (m !! 8%nat) [lit "GA"]) (mark_ga result);
      ret (Some result)
  end.

(** ** [is_ga]

    [is_ga] reads the dictionary [is_ga_tag]; it is passed as [ga].  In
    Python 2 [None > 0] is false, so an absent component is not positive. *)

(** [version in d] for one of the two dictionaries. *)
Definition in_dict (v : version) (d : gset version) : bool := bool_decide (v ∈ d).

Definition positive (x : option Z) : bool :=
  match x with
  | Some n => 0 <? n
  | None => false
  end.

(** The loop at index [i], counting down to 1, and the final test. *)
Fixpoint is_ga_loop (ga : gset version) (i : nat) (version : version) : bool :=
  match i with
  | O => in_dict version ga
  | S i' =>
      if in_dict version ga then true
      else if positive (vget version i) then false
      else is_ga_loop ga i' (vset version i None)
  end.

Definition is_ga (ga : gset version) (version : version) : bool :=
  is_ga_loop ga 3 version.

(** ** [is_same_base_version]

    The loop runs [i = 0 .. 3]; [n] counts the iterations left.  Falling off
    the loop returns Python's implicit [None]. *)

Fixpoint is_same_base_version_loop (ga : gset version) (n i : nat)
    (ref other : version) : option version :=
  match n with
  | O => None
  | S n' =>
      match vget ref i with
      | None =>
          match vget other i with
          | Some o => Some (vset ref i (Some (o + 1)))
          | None => if is_ga ga other then Some (vset ref i (Some 1)) else Some ref
          end
      | Some _ =>
          if bool_decide (vget ref i = vget other i)
          then is_same_base_version_loop ga n' (S i) ref other
          else None
      end
  end.

Definition is_same_base_version (ga : gset version) (ref other : version) : option version :=
  is_same_base_version_loop ga 4 0 ref other.

(** ** Sorting the candidates

    Python 2 orders tuples lexicographically and puts [None] below every
    integer.  Tuples that compare equal are the same tuple, so every sorting
    algorithm returns the same list. *)

Definition cmp_component (x y : option Z) : comparison :=
  match x, y with
  | None, None => Eq
  | None, Some _ => Lt
  | Some _, None => Gt
  | Some a, Some b => a ?= b
  end.

Fixpoint cmp_components (l1 l2 : list (option Z)) : comparison :=
  match l1, l2 with
  | [], [] => Eq
  | [], _ :: _ => Lt
  | _ :: _, [] => Gt
  | x :: l1', y :: l2' =>
      match cmp_component x y with
      | Eq => cmp_components l1' l2'
      | c => c
      end
  end.

Definition version_leb (v w : version) : bool :=
  match cmp_components (components v) (components w) with
  | Gt => false
  | _ => true
  end.

Fixpoint insert_sorted (v : version) (l : list version) : list version :=
  match l with
  | [] => [v]
  | w :: l' => if version_leb v w then v :: l else w :: insert_sorted v l'
  end.

Definition sort (l : list version) : list version :=
  fold_right insert_sorted [] l.

(** ** The driver *)

(** The scan over the sorted candidates, with [final_version] as it stands. *)
Fixpoint scan (ga : gset version) (my_branch : version) (versions : list version)
    (final_version : option version) : option version :=
  match versions with
  | [] => final_version
  | v :: rest =>
      match is_same_base_version ga my_branch v with
      | None =>
          match final_version with
          | None => scan ga my_branch rest final_version
          | Some _ => final_version
          end
      | Some candidate => scan ga my_branch rest (Some candidate)
      end
  end.

(** What a run leaves behind: the two streams and the exit status. *)
Record outcome : Type := Outcome {
  stdout : list ascii;
  stderr : list ascii;
  status : Z
}.

(** [print x]: the text and a newline. *)
Definition print (x : str) : str := x ++ [newline].

(** [for name in names: v = process(regexp.match(name.strip())); ...append(v)] *)
Fixpoint process_all (r : regex) (names : list str) (versions : list version)
    : M (list version) :=
  match names with
  | [] => ret versions
  | name :: names' =>
      do v <- process (re_match r (strip name));
      process_all r names'
        (match v with Some v => versions ++ [v] | None => versions end)
  end.

(** The branch tuple, or [None] when the script stops with "Bad branch". *)
Definition resolve_branch (my_branch_name : str) : M (option version) :=
  if endswith my_branch_name "/master"
  then run mark_dev DEFAULT_MASTER_VERSION; ret (Some DEFAULT_MASTER_VERSION)
  else process (re_match branch_regexp (strip my_branch_name)).

Definition get : M classes := fun st => (st, st).

(** The early-exit test: the tuple is in neither dictionary. *)
Definition terminal (my_branch : version) (st : classes) : bool :=
  negb (in_dict my_branch (is_dev_branch st))
  && negb (in_dict my_branch (is_ga_tag st)).

(** The run once the current branch is resolved: from the tag loop to the
    last [print]. *)
Definition emit_version (tags branches : list str) (my_branch : version) : M outcome :=
  do versions <- process_all tag_regexp tags [];
  do st <- get;
  if terminal my_branch st
  then ret (Outcome (print (display my_branch)) "" 0)
  else
    do versions <- process_all branch_regexp branches versions;
    do st <- get;
    let final_version :=
      default my_branch (scan (is_ga_tag st) my_branch (sort versions) None) in
    ret (Outcome (print (display final_version)) "" 0).

Definition mkversion_m (tags branches : list str) (my_branch_name : str) : M outcome :=
  do b <- resolve_branch my_branch_name;
  match b with
  | None => ret (Outcome "" (print ("Bad branch: " ++ my_branch_name)) 1)
  | Some my_branch => emit_version tags branches my_branch
  end.

(** A run starts with both dictionaries empty. *)
Definition mkversion (tags branches : list str) (my_branch_name : str) : outcome :=
  fst (mkversion_m tags branches my_branch_name no_classes).

(** ** [GitQuery] and the build mode

    [GitQuery.git] runs the git command with the given arguments.  The
    command is outside the script: [git args] is [Some] of its standard
    output when it returns 0, and [None] when it does not, in which case
    [GitQuery.git] reports the command and stops the script with status 1. *)

(** [s.split(sep)] for a one-character separator. *)
Fixpoint split_on (sep : ascii) (s : str) : list (list ascii) :=
  match s with
  | [] => [[]]
  | c :: s' =>
      if chr_eqb c sep then [] :: split_on sep s'
      else
        match split_on sep s' with
        | x :: l => (c :: x) :: l
        | [] => [[c]]
        end
  end.

(** [s.lstrip(c)] for a one-character set. *)
Fixpoint lstrip_chr (c : ascii) (s : str) : str :=
  match s with
  | a :: s' => if chr_eqb a c then lstrip_chr c s' else s
  | [] => []
  end.

(** The loop of [GitQuery.branches] over the lines of [git branch --all]. *)
Fixpoint branches_loop (lines : list (list ascii)) (branches : list (list ascii))
    (my_branch : option (list ascii)) : list (list ascii) * option (list ascii) :=
  match lines with
  | [] => (branches, my_branch)
  | branch :: lines' =>
      if startswith branch "*"
      then branches_loop lines' branches (Some (strip (lstrip_chr "*" branch)))
      else if bool_decide ("/"%char ∈ branch)
      then branches_loop lines' (branches ++ [branch]) my_branch
      else branches_loop lines' branches my_branch
  end.

(** How a run in build mode ends: with an outcome of the script proper,
    inside [GitQuery.git] after a failed command, or with the
    [AttributeError] of calling [endswith] on [None]. *)
Inductive build_result : Type :=
| Finished (o : outcome)
| GitFailed
| AttributeError.

Section GitQuery.

Variable git : list (list ascii) -> option (list ascii).

Definition GitQuery_tags : option (list (list ascii)) :=
  split_on newline <$> git [lit "tag"].

Definition GitQuery_branches : option (list (list ascii) * option (list ascii)) :=
  match git [lit "branch"; lit "--all"] with
  | None => None
  | Some out =>
      let '(branches, my_branch) := branches_loop (split_on newline out) [] None in
      match my_branch with
      | None => Some (branches, None)
      | Some b =>
          match git [lit "rev-parse"; lit "--abbrev-ref"; b ++ "@{upstream}"] with
          | None => None
          | Some upstream => Some (branches, Some (strip upstream))
          end
      end
  end.

(** The script without arguments: tags and branches from git. *)
Definition mkversion_build : build_result :=
  match GitQuery_tags with
  | None => GitFailed
  | Some tags =>
      match GitQuery_branches with
      | None => GitFailed
      | Some (branches, None) => AttributeError
      | Some (branches, Some my_branch_name) =>
          Finished (mkversion tags branches my_branch_name)
      end
  end.

End GitQuery.

(** A line of the branch listing that [GitQuery.branches] registers. *)
Definition remote_line (l : list ascii) : Prop :=
  startswith l "*" = false /\ "/"%char ∈ l.

Definition starred_line (l : list ascii) : Prop := startswith l "*" = true.

Global Instance remote_line_dec l : Decision (remote_line l) :=
  and_dec (decide (startswith l "*" = false)) (decide ("/"%char ∈ l)).

Global Instance starred_line_dec l : Decision (starred_line l) :=
  decide (startswith l "*" = true).

(** ** The display form, in the words of the specification

    Render the components up to the first [None], without the trailing run
    of zeros, joined by dots. *)

Fixpoint defined_prefix (l : list (option Z)) : list Z :=
  match l with
  | Some n :: l' => n :: defined_prefix l'
  | _ => []
  end.

Fixpoint drop_trailing_zeros (l : list Z) : list Z :=
  match l with
  | [] => []
  | n :: l' =>
      match drop_trailing_zeros l' with
      | [] => if n =? 0 then [] else [n]
      | r => n :: r
      end
  end.

Fixpoint join (sep : str) (l : list str) : str :=
  match l with
  | [] => []
  | x :: l' =>
      match l' with
      | [] => x
      | _ => x ++ sep ++ join sep l'
      end
  end.

Definition display_spec (v : version) : str :=
  join "." (map str_of_int (drop_trailing_zeros (defined_prefix (components v)))).

(** The loop of [display] on the defined prefix alone. *)
Fixpoint display_run (l : list Z) (sep v : str) : str :=
  match l with
  | [] => v
  | n :: l' =>
      if n =? 0 then display_run l' (sep ++ "0.") v
      else display_run l' "." (v ++ sep ++ str_of_int n)
  end.

(** ** Instrumented and auxiliary definitions *)

(** [is_ga] with the tuples it looks up in [is_ga_tag] recorded in order. *)
Fixpoint is_ga_probe_loop (ga : gset version) (i : nat) (v : version)
    : bool * list version :=
  match i with
  | O => (in_dict v ga, [v])
  | S i' =>
      if in_dict v ga then (true, [v])
      else if positive (vget v i) then (false, [v])
      else
        let '(b, log) := is_ga_probe_loop ga i' (vset v i None) in
        (b, v :: log)
  end.

Definition is_ga_probes (ga : gset version) (v : version) : bool * list version :=
  is_ga_probe_loop ga 3 v.

(** The tuple and its three rollups, finest first. *)
Definition rollups (v : version) : list version :=
  let '(a, b, c, d) := v in
  [(a, b, c, d); (a, b, c, None); (a, b, None, None); (a, None, None, None)].

(** The first index at which a tuple is [None]. *)
Fixpoint first_none (l : list (option Z)) : option nat :=
  match l with
  | [] => None
  | None :: _ => Some O
  | Some _ :: l' => S <$> first_none l'
  end.

Definition first_wildcard (ref : version) : option nat := first_none (components ref).

(** The two tuples agree at every index below [i]. *)
Definition agree_before (i : nat) (ref other : version) : bool :=
  bool_decide (take i (components ref) = take i (components other)).

(** The longest prefix of [s] in the class [p], and what follows it. *)
Fixpoint leading (p : ascii -> bool) (s : str) : str :=
  match s with
  | c :: s' => if p c then c :: leading p s' else []
  | [] => []
  end.

Fixpoint after (p : ascii -> bool) (s : str) : str :=
  match s with
  | c :: s' => if p c then after p s' else s
  | [] => []
  end.

(** A dot and a number at the head of [s]: the digits and the rest. *)
Definition dotnum (s : str) : option (list ascii * list ascii) :=
  match s with
  | c :: d :: s' =>
      if chr_eqb "." c && is_digit d
      then Some (leading is_digit (d :: s'), after is_digit (d :: s'))
      else None
  | _ => None
  end.

(** What [(\.(\d+)|)] numbered [n] does to the position, the input and
    the groups. *)
Definition opt_step (n : nat) (st : nat * list ascii * gmap nat (list ascii))
    : nat * list ascii * gmap nat (list ascii) :=
  let '(pos, s, g) := st in
  match dotnum s with
  | Some (ds, rest) =>
      (S pos + length ds, rest, <[n := "."%char :: ds]> (<[S n := ds]> g))%nat
  | None => (pos, s, <[n := []]> g)
  end.

(** The three properties of a continuation that make the optional groups
    before it deterministic: it fails on input that starts with a digit, its
    failure does not depend on the groups, and it fails before a dot and a
    number whenever it fails after them. *)
Definition rejects_digit (k : cont) : Prop :=
  forall pos c s g, is_digit c = true -> k pos (c :: s) g = None.

Definition groups_blind (k : cont) : Prop :=
  forall pos s g g', k pos s g = None -> k pos s g' = None.

Definition dot_monotone (k : cont) : Prop :=
  forall pos s g g' ds rest,
    dotnum s = Some (ds, rest) ->
    k (S pos + length ds)%nat rest g' = None -> k pos s g = None.

Definition tail_ok (k : cont) : Prop :=
  rejects_digit k /\ groups_blind k /\ dot_monotone k.

(** The major component is a non-negative integer and no [None] is followed
    by a defined component. *)
Definition prefix_shaped (v : version) : Prop :=
  (exists n, vget v 0 = Some n /\ 0 <= n)
  /\ forall i j : nat, (i < j < 4)%nat -> vget v i = None -> vget v j = None.

(** The tuple [process] builds from a match object. *)
Definition result_of (m : gmap nat (list ascii)) : version := tuple (process_loop 4 1 m).

(** [$]: the end of the input, or a newline that ends it. *)
Definition at_eol (s : str) : bool :=
  match s with
  | [] => true
  | [c] => chr_eqb c newline
  | _ => false
  end.

Definition not_digit_led (s : str) : Prop :=
  match s with
  | c :: _ => is_digit c = false
  | [] => True
  end.

(** ** The Name Parser, as the specification speaks of it

    A name parses to the tuple [process] returns and the suffix in group 8;
    a parsed tuple is written back as a name by putting its display form
    between what the grammar wants before it ([v], or a path and a slash) and
    the suffix. *)

Inductive grammar : Type := Tag | Branch.

Definition pattern (gr : grammar) : regex :=
  match gr with
  | Tag => tag_regexp
  | Branch => branch_regexp
  end.

Definition parse (gr : grammar) (s : str) : option (version * list ascii) :=
  match re_match (pattern gr) s with
  | Some m => Some (result_of m, default [] (m !! 8%nat))
  | None => None
  end.

Definition rebuild (gr : grammar) (path body suffix : str) : str :=
  match gr with
  | Tag => "v" ++ body ++ suffix
  | Branch => path ++ "/" ++ body ++ suffix
  end.

(** The tuple with its trailing run of zeros turned into [None]. *)
Definition normalize (t : version) : version :=
  tuple (map Some (drop_trailing_zeros (defined_prefix (components t)))).

(** The current branch name is neither the trunk alias nor accepted by the
    branch grammar. *)
Definition bad_branch (my_branch_name : str) : bool :=
  negb (endswith my_branch_name "/master")
  && bool_decide (re_match branch_regexp (strip my_branch_name) = None).

Definition matches (ga : gset version) (ref v : version) : Prop :=
  is_same_base_version ga ref v <> None.

Definition no_match (ga : gset version) (ref v : version) : Prop :=
  is_same_base_version ga ref v = None.

(** The characters of a display form. *)
Definition version_char (c : ascii) : bool :=
  is_digit c || chr_eqb c "." || chr_eqb c "-".

(** The suffixes a tail can record in group 8. *)
Definition suffixes (gr : grammar) : list (list ascii) :=
  match gr with
  | Tag => [lit "GA"]
  | Branch => [lit ".x"; lit ".next"; lit "-patch"; lit ""]
  end.

Definition tail (gr : grammar) : regex :=
  match gr with
  | Tag => tag_tail
  | Branch => branch_tail
  end.

(** The tuples the two grammars produce: one to four non-negative numbers,
    then [None]s. *)
Definition parsed_shape (v : version) : Prop :=
  exists ys, ys <> [] /\ (length ys <= 4)%nat /\ Forall (fun y => 0 <= y) ys
    /\ v = tuple (map Some ys).

(** One iteration of the loops over the tags and over the branches. *)
Definition process_step (r : regex) (acc : list version * classes) (name : str)
    : list version * classes :=
  let '(v, st') := process (re_match r (strip name)) (snd acc) in
  (match v with Some v => fst acc ++ [v] | None => fst acc end, st').

(** The same candidates, in any order, and the same dictionaries. *)
Definition same_candidates (a b : list version * classes) : Prop :=
  fst a ≡ₚ fst b /\ snd a = snd b.

(** The order [sort] sorts by, as a relation, and strict order on
    components. *)
Definition version_le (v w : version) : Prop := version_leb v w = true.

Definition component_lt (x y : option Z) : Prop :=
  match x, y with
  | None, Some _ => True
  | Some a, Some b => a < b
  | _, None => False
  end.

(** * Properties *)

(** ** Sample runs *)

Example process_tag :
  process (re_match tag_regexp "v1.2.3GA") no_classes
  = (Some (Some 1, Some 2, Some 3, None), Classes ∅ {[ (Some 1, Some 2, Some 3, None) ]}).
Proof. vm_compute. reflexivity. Qed.

Example process_dev_branch :
  process (re_match branch_regexp "remotes/origin/1.2.next") no_classes
  = (Some (Some 1, Some 2, None, None), Classes {[ (Some 1, Some 2, None, None) ]} ∅).
Proof. vm_compute. reflexivity. Qed.

Example process_plain_branch :
  process (re_match branch_regexp "origin/1.2") no_classes
  = (Some (Some 1, Some 2, None, None), no_classes).
Proof. vm_compute. reflexivity. Qed.

Example process_other_tag : process (re_match tag_regexp "nightly") no_classes = (None, no_classes).
Proof. vm_compute. reflexivity. Qed.

Example successor_of_ga_tag :
  is_same_base_version {[ (Some 1, Some 2, None, None) ]}
    (Some 1, None, None, None) (Some 1, Some 2, None, None)
  = Some (Some 1, Some 3, None, None).
Proof. vm_compute. reflexivity. Qed.

Example sort_none_first :
  sort [(Some 1, Some 2, None, None); (Some 1, None, None, None); (Some 0, Some 9, None, None)]
  = [(Some 0, Some 9, None, None); (Some 1, None, None, None); (Some 1, Some 2, None, None)].
Proof. vm_compute. reflexivity. Qed.

Example run_dev_branch :
  mkversion ["v1.2GA" : str] ["origin/1.next" : str] "origin/1.next" = Outcome (print "1.3") "" 0.
Proof. vm_compute. reflexivity. Qed.

Example run_master : mkversion [] [] "origin/master" = Outcome (print "3") "" 0.
Proof. vm_compute. reflexivity. Qed.

(** ** [display] *)

Section Display.

Lemma display_loop_prefix l sep v :
  display_loop l sep v = display_run (defined_prefix l) sep v.
Proof.
  revert sep v; induction l as [|[n|] l IH]; intros sep v; simpl; auto.
  destruct (n =? 0); apply IH.
Qed.

Lemma join_cons sep x y l : join sep (x :: y :: l) = x ++ sep ++ join sep (y :: l).
Proof. reflexivity. Qed.

Lemma display_run_spec l sep v :
  display_run l sep v =
    match drop_trailing_zeros l with
    | [] => v
    | r => v ++ sep ++ join "." (map str_of_int r)
    end.
Proof.
  revert sep v; induction l as [|n l IH]; intros sep v; [reflexivity|].
  cbn [display_run drop_trailing_zeros].
  destruct (Z.eqb_spec n 0) as [->|Hn]; rewrite IH;
    destruct (drop_trailing_zeros l) as [|m r]; cbn [map];
    rewrite ?join_cons, <- ?app_assoc; reflexivity.
Qed.

Lemma display_is_spec v : display v = display_spec v.
Proof.
  unfold display, display_spec.
  rewrite display_loop_prefix, display_run_spec.
  destruct (drop_trailing_zeros _); reflexivity.
Qed.

End Display.

(** C5: [display] renders the components left to right up to the first
    [None], drops the trailing run of zero components and keeps the interior
    zeros; the six renderings of the specification are as stated. *)
Theorem C5_display_drops_trailing_zeros :
  (forall v, display v = display_spec v)
  /\ display (Some 1, Some 0, Some 2, None) = "1.0.2"
  /\ display (Some 1, Some 0, None, None) = "1"
  /\ display (Some 1, Some 2, Some 0, Some 0) = "1.2"
  /\ display (Some 1, Some 0, Some 0, None) = "1"
  /\ display (Some 1, Some 0, Some 2, Some 0) = "1.0.2"
  /\ display (None, None, None, None) = "".
Proof.
  split; [exact display_is_spec|].
  repeat split; reflexivity.
Qed.

(** ** [is_ga] *)

Lemma in_dict_singleton (v w : version) :
  in_dict v {[ w ]} = bool_decide (v = w).
Proof. apply bool_decide_ext, elem_of_singleton. Qed.

(** C3: with the single GA tag [(a, b, None, None)] recorded,
    [is_ga (a, b, 0, 0)] is true and [is_ga (a, b, 1, 0)] is false. *)
Theorem C3_is_ga_rollup (a b : Z) :
  is_ga {[ (Some a, Some b, None, None) ]} (Some a, Some b, Some 0, Some 0) = true
  /\ is_ga {[ (Some a, Some b, None, None) ]} (Some a, Some b, Some 1, Some 0) = false.
Proof.
  unfold is_ga; cbn [is_ga_loop vget vset positive].
  rewrite !in_dict_singleton.
  split; repeat (case_bool_decide; try congruence); reflexivity.
Qed.

Lemma is_ga_probes_result ga v : fst (is_ga_probes ga v) = is_ga ga v.
Proof.
  unfold is_ga_probes, is_ga. generalize 3%nat as i. intros i; revert v.
  induction i as [|i IH]; intros v; cbn [is_ga_probe_loop is_ga_loop]; [reflexivity|].
  destruct (in_dict v ga); [reflexivity|].
  destruct (positive (vget v (S i))); [reflexivity|].
  specialize (IH (vset v (S i) None)).
  destruct (is_ga_probe_loop ga i (vset v (S i) None)); exact IH.
Qed.

Lemma is_ga_probes_prefix ga v : snd (is_ga_probes ga v) `prefix_of` rollups v.
Proof.
  destruct v as [[[a b] c] d].
  unfold is_ga_probes; cbn [is_ga_probe_loop vget vset rollups].
  repeat match goal with
  | |- context [in_dict ?v ga] => destruct (in_dict v ga)
  | |- context [positive ?x] => destruct (positive x)
  end; cbn [snd];
  repeat (apply prefix_cons); apply prefix_nil.
Qed.

(** C10: [is_ga] tests positivity at the indices 3, 2 and 1 only, looks up
    the tuple and its rollups at these indices only, and the coarsest tuple
    it looks up is [(major, None, None, None)]: every tuple it looks up keeps
    the major component of its argument. *)
Theorem C10_is_ga_keeps_major (ga : gset version) (a b c d : option Z) :
  is_ga ga (a, b, c, d) =
    (in_dict (a, b, c, d) ga
     || negb (positive d)
        && (in_dict (a, b, c, None) ga
            || negb (positive c)
               && (in_dict (a, b, None, None) ga
                   || negb (positive b) && in_dict (a, None, None, None) ga)))
  /\ fst (is_ga_probes ga (a, b, c, d)) = is_ga ga (a, b, c, d)
  /\ snd (is_ga_probes ga (a, b, c, d)) `prefix_of`
       [(a, b, c, d); (a, b, c, None); (a, b, None, None); (a, None, None, None)]
  /\ Forall (fun p => vget p 0 = a) (snd (is_ga_probes ga (a, b, c, d))).
Proof.
  split; [|split; [apply is_ga_probes_result|split; [apply (is_ga_probes_prefix ga (a, b, c, d))|]]].
  - unfold is_ga; cbn [is_ga_loop vget vset].
    repeat match goal with
    | |- context [in_dict ?v ga] => destruct (in_dict v ga)
    | |- context [positive ?x] => destruct (positive x)
    end; reflexivity.
  - destruct (is_ga_probes_prefix ga (a, b, c, d)) as [k Hk].
    cbn [rollups] in Hk.
    assert (Hall : Forall (fun p : version => vget p 0 = a)
              [(a, b, c, d); (a, b, c, None); (a, b, None, None); (a, None, None, None)])
      by (repeat constructor).
    rewrite Hk in Hall. apply Forall_app in Hall. apply Hall.
Qed.

(** ** [is_same_base_version] *)

(** With [ref = other = (1, None, None, None)] and no GA tag, index 1 is the
    first wildcard of [ref], [other] is undefined there and is not GA, and
    the call returns [ref], not the no-match sentinel. *)
Lemma C1_counterexample :
  first_wildcard (Some 1, None, None, None) = Some 1%nat
  /\ vget (Some 1, None, None, None) 1 = None
  /\ is_ga ∅ (Some 1, None, None, None) = false
  /\ is_same_base_version ∅ (Some 1, None, None, None) (Some 1, None, None, None)
     = Some (Some 1, None, None, None)
  /\ is_same_base_version ∅ (Some 1, None, None, None) (Some 1, None, None, None) <> None.
Proof. repeat split; try (vm_compute; reflexivity). vm_compute; discriminate. Qed.

(** C1, as the code has it: when [i] is the first index at which [ref] is [None],
    [other] is [None] there too and [is_ga other] is false, the call returns
    [ref] unchanged if the two tuples agree below [i], and the no-match
    sentinel otherwise. *)
Theorem C1_wildcard_without_successor (ga : gset version) (ref other : version) (i : nat) :
  first_wildcard ref = Some i ->
  vget other i = None ->
  is_ga ga other = false ->
  is_same_base_version ga ref other =
    if agree_before i ref other then Some ref else None.
Proof.
  destruct ref as [[[a b] c] d], other as [[[a' b'] c'] d'].
  unfold first_wildcard, agree_before, is_same_base_version.
  intros Hi Ho Hga.
  destruct a, b, c, d; cbn in Hi; try discriminate Hi;
    injection Hi as <-; cbn in Ho; subst;
    cbn [is_same_base_version_loop vget vset components take];
    rewrite ?Hga;
    repeat (case_bool_decide; simplify_eq; try reflexivity; try congruence).
Qed.

Lemma C1_wildcard_without_successor_witness :
  is_same_base_version ∅ (Some 1, None, None, None) (Some 1, None, None, None)
  = if agree_before 1 (Some 1, None, None, None) (Some 1, None, None, None)
    then Some (Some 1, None, None, None) else None.
Proof.
  apply (C1_wildcard_without_successor ∅ (Some 1, None, None, None) (Some 1, None, None, None) 1);
    vm_compute; reflexivity.
Defined.

(** ** The scan *)

Section Scan.

Variable ga : gset version.
Variable ref : version.

Lemma scan_skip skipped l :
  Forall (no_match ga ref) skipped ->
  scan ga ref (skipped ++ l) None = scan ga ref l None.
Proof.
  induction 1 as [|v skipped Hv _ IH]; [reflexivity|].
  cbn [app scan]. rewrite Hv. exact IH.
Qed.

Lemma scan_block block rest w final :
  Forall (matches ga ref) block ->
  last block = Some w ->
  match rest with [] => True | v :: _ => no_match ga ref v end ->
  scan ga ref (block ++ rest) final = is_same_base_version ga ref w.
Proof.
  intros Hb; revert final; induction Hb as [|v block Hv Hb IH]; intros final Hlast Hrest.
  - discriminate.
  - cbn [app scan].
    destruct (is_same_base_version ga ref v) as [c|] eqn:Hc; [|contradiction Hv; exact Hc].
    destruct block as [|v' block].
    + injection Hlast as <-.
      destruct rest as [|r rest]; cbn [app scan]; [symmetry; exact Hc|].
      rewrite Hrest. symmetry; exact Hc.
    + apply IH; [exact Hlast|exact Hrest].
Qed.

End Scan.

(** C4: in the scan, the candidates that do not match before the first
    match are skipped, the first candidate that does not match after a match
    ends the scan, whatever follows it, and the result is the increment
    computed for the last candidate of the matching block. *)
Theorem C4_scan_stops_after_block (ga : gset version) (ref : version)
    (skipped block rest : list version) (w : version) :
  Forall (no_match ga ref) skipped ->
  Forall (matches ga ref) block ->
  last block = Some w ->
  match rest with [] => True | v :: _ => no_match ga ref v end ->
  scan ga ref (skipped ++ block ++ rest) None = is_same_base_version ga ref w
  /\ is_same_base_version ga ref w <> None.
Proof.
  intros Hs Hb Hlast Hrest. split.
  - rewrite scan_skip by exact Hs. apply scan_block; assumption.
  - apply last_Some in Hlast as [l' ->].
    apply Forall_app in Hb as [_ Hb]. inversion Hb; assumption.
Qed.

Lemma C4_scan_stops_after_block_witness :
  scan ∅ (Some 1, None, None, None)
    ([(Some 0, Some 5, None, None)]
     ++ [(Some 1, Some 2, None, None); (Some 1, Some 4, None, None)]
     ++ [(Some 2, None, None, None); (Some 1, Some 9, None, None)]) None
  = is_same_base_version ∅ (Some 1, None, None, None) (Some 1, Some 4, None, None)
  /\ is_same_base_version ∅ (Some 1, None, None, None) (Some 1, Some 4, None, None) <> None.
Proof.
  apply (C4_scan_stops_after_block ∅ (Some 1, None, None, None)
           [(Some 0, Some 5, None, None)]
           [(Some 1, Some 2, None, None); (Some 1, Some 4, None, None)]
           [(Some 2, None, None, None); (Some 1, Some 9, None, None)]
           (Some 1, Some 4, None, None)).
  - repeat constructor.
  - repeat constructor; vm_compute; discriminate.
  - reflexivity.
  - reflexivity.
Defined.

(** ** End-to-end runs *)

(** With the tag [v2GA] and the branch [origin/2], the run does not print
    [2]. *)
Lemma C2_counterexample :
  stdout (mkversion ["v2GA" : str] [] "origin/2") <> print "2".
Proof. vm_compute. discriminate. Qed.

(** C2, as the code has it: for tags [v2GA], no branches and the current branch
    [origin/2], the branch tuple [(2, None, None, None)] is in the GA
    dictionary when the early-exit test runs, the test fails, and the run
    prints [2.1] and exits with status 0. *)
Theorem C2_tagged_branch_gets_successor :
  mkversion ["v2GA" : str] [] "origin/2" = Outcome (print "2.1") "" 0
  /\ (let '(b, st) := resolve_branch "origin/2" no_classes in
      let '(_, st') := process_all tag_regexp ["v2GA" : str] [] st in
      b = Some (Some 2, None, None, None)
      /\ in_dict (Some 2, None, None, None) (is_ga_tag st') = true
      /\ terminal (Some 2, None, None, None) st' = false).
Proof. vm_compute. repeat split. Qed.

(** ** Decimal numerals *)

Lemma small_cases d : 0 <= d < 10 ->
  d = 0 \/ d = 1 \/ d = 2 \/ d = 3 \/ d = 4 \/ d = 5 \/ d = 6 \/ d = 7 \/ d = 8 \/ d = 9.
Proof. lia. Qed.

Lemma digit_chr_is_digit d : 0 <= d < 10 -> is_digit (digit_chr d) = true.
Proof.
  intros H; destruct (small_cases d H) as [->|[->|[->|[->|[->|[->|[->|[->|[->| ->]]]]]]]]];
    reflexivity.
Qed.

Lemma digit_val_chr d : 0 <= d < 10 -> digit_val (digit_chr d) = d.
Proof.
  intros H; destruct (small_cases d H) as [->|[->|[->|[->|[->|[->|[->|[->|[->| ->]]]]]]]]];
    reflexivity.
Qed.

Lemma digit_val_range c : is_digit c = true -> 0 <= digit_val c < 10.
Proof.
  unfold is_digit, digit_val; cbv zeta.
  rewrite andb_true_iff, !Nat.leb_le. lia.
Qed.

Lemma int_app x y a :
  fold_left (fun acc c => 10 * acc + digit_val c) (x ++ y) a
  = fold_left (fun acc c => 10 * acc + digit_val c) y
      (fold_left (fun acc c => 10 * acc + digit_val c) x a).
Proof. apply fold_left_app. Qed.

Lemma int_acc_nonneg x a :
  Forall (fun c => is_digit c = true) x -> 0 <= a ->
  0 <= fold_left (fun acc c => 10 * acc + digit_val c) x a.
Proof.
  intros Hx; revert a; induction Hx as [|c x Hc _ IH]; intros a Ha; cbn [fold_left]; [exact Ha|].
  apply IH. pose proof (digit_val_range c Hc). lia.
Qed.

Lemma int_nonneg x : Forall (fun c => is_digit c = true) x -> 0 <= int x.
Proof. intros Hx; apply int_acc_nonneg; [exact Hx|lia]. Qed.

(** With enough fuel, [digits_of] puts the numeral of [n] in front of [acc]. *)
Lemma digits_of_numeral fuel : forall n acc,
  0 <= n < 10 ^ Z.of_nat fuel -> (0 < fuel)%nat ->
  exists ds, digits_of fuel n acc = ds ++ acc
    /\ ds <> []
    /\ Forall (fun c => is_digit c = true) ds
    /\ forall a, fold_left (fun acc c => 10 * acc + digit_val c) ds a
                 = a * 10 ^ Z.of_nat (length ds) + n.
Proof.
  induction fuel as [|fuel IH]; intros n acc Hn Hfuel; [lia|].
  - cbn [digits_of]. destruct (Z.ltb_spec n 10) as [Hlt|Hge].
    + exists [digit_chr (n mod 10)]. rewrite Z.mod_small by lia.
      repeat split; [discriminate|repeat constructor; apply digit_chr_is_digit; lia|].
      intros a; cbn [fold_left length]. rewrite digit_val_chr by lia.
      change (Z.of_nat 1) with 1. lia.
    + assert (Hq : 0 <= n / 10 < 10 ^ Z.of_nat fuel).
      { split; [apply Z.div_pos; lia|].
        apply Z.div_lt_upper_bound; [lia|].
        rewrite Nat2Z.inj_succ, Z.pow_succ_r in Hn by lia. lia. }
      assert (Hpos : (0 < fuel)%nat).
      { destruct fuel; [cbn in Hn; lia|lia]. }
      destruct (IH (n / 10) (digit_chr (n mod 10) :: acc) Hq Hpos)
        as (ds & Heq & Hne & Hall & Hval).
      exists (ds ++ [digit_chr (n mod 10)]).
      pose proof (Z.mod_pos_bound n 10 ltac:(lia)) as Hm.
      repeat split.
      * rewrite Heq, <- app_assoc. reflexivity.
      * destruct ds; discriminate.
      * apply Forall_app; split; [exact Hall|].
        repeat constructor. apply digit_chr_is_digit; lia.
      * intros a. rewrite int_app, Hval. cbn [fold_left].
        rewrite digit_val_chr by lia.
        rewrite length_app, Nat2Z.inj_add, Z.pow_add_r by lia.
        cbn [length]. change (Z.of_nat 1) with 1.
        pose proof (Z.div_mod n 10 ltac:(lia)). lia.
Qed.

Lemma str_nonneg_numeral n : 0 <= n ->
  str_nonneg n <> []
  /\ Forall (fun c => is_digit c = true) (str_nonneg n)
  /\ int (str_nonneg n) = n.
Proof.
  intros Hn. unfold str_nonneg.
  assert (Hf : 0 <= n < 10 ^ Z.of_nat (S (Z.to_nat (Z.log2 n)))).
  { split; [exact Hn|].
    rewrite Nat2Z.inj_succ, Z2Nat.id by apply Z.log2_nonneg.
    destruct (Z.eq_dec n 0) as [->|Hnz]; [cbn; lia|].
    pose proof (Z.log2_spec n ltac:(lia)) as [_ Hup].
    eapply Z.lt_le_trans; [exact Hup|].
    apply Z.pow_le_mono_l. lia. }
  destruct (digits_of_numeral _ n [] Hf ltac:(lia)) as (ds & Heq & Hne & Hall & Hval).
  rewrite Heq, app_nil_r. repeat split; auto.
  unfold int. rewrite Hval. lia.
Qed.

Lemma is_digit_version_char c : is_digit c = true -> version_char c = true.
Proof. unfold version_char; intros ->; reflexivity. Qed.

Lemma str_of_int_chars n : Forall (fun c => version_char c = true) (str_of_int n).
Proof.
  unfold str_of_int. destruct (Z.ltb_spec n 0).
  - constructor; [reflexivity|].
    destruct (str_nonneg_numeral (- n) ltac:(lia)) as (_ & Hall & _).
    eapply Forall_impl; [exact Hall|]. intros c; apply is_digit_version_char.
  - destruct (str_nonneg_numeral n ltac:(lia)) as (_ & Hall & _).
    eapply Forall_impl; [exact Hall|]. intros c; apply is_digit_version_char.
Qed.

Lemma display_loop_chars l : forall sep v,
  Forall (fun c => version_char c = true) sep ->
  Forall (fun c => version_char c = true) v ->
  Forall (fun c => version_char c = true) (display_loop l sep v).
Proof.
  induction l as [|[n|] l IH]; intros sep v Hsep Hv; cbn [display_loop]; auto.
  destruct (n =? 0).
  - apply IH; [|exact Hv]. apply Forall_app; split; [exact Hsep|repeat constructor].
  - apply IH; [repeat constructor|].
    apply Forall_app; split; [exact Hv|].
    apply Forall_app; split; [exact Hsep|apply str_of_int_chars].
Qed.

Lemma display_chars v : Forall (fun c => version_char c = true) (display v).
Proof. apply display_loop_chars; constructor. Qed.

Lemma display_one_line v : newline ∉ display v.
Proof.
  intros Hin. pose proof (display_chars v) as Hall.
  rewrite Forall_forall in Hall. apply Hall in Hin. discriminate Hin.
Qed.

(** ** The outcome of a run *)

Lemma process_Some m st :
  exists st', process (Some m) st = (Some (tuple (process_loop 4 1 m)), st').
Proof.
  unfold process, bind, when, ret.
  destruct (group_in _ _), (group_in _ _); cbn; eexists; reflexivity.
Qed.

Lemma emit_version_prints tags branches my_branch st :
  exists v, fst (emit_version tags branches my_branch st) = Outcome (print (display v)) "" 0.
Proof.
  unfold emit_version, bind, get, ret.
  destruct (process_all tag_regexp tags [] st) as [versions st1].
  destruct (terminal my_branch st1); [exists my_branch; reflexivity|].
  destruct (process_all branch_regexp branches versions st1) as [versions' st2].
  eexists; reflexivity.
Qed.

Lemma mkversion_bad_branch tags branches my_branch_name :
  endswith my_branch_name "/master" = false ->
  re_match branch_regexp (strip my_branch_name) = None ->
  mkversion tags branches my_branch_name
  = Outcome "" ("Bad branch: " ++ my_branch_name ++ [newline]) 1.
Proof.
  intros Hend Hre. unfold mkversion, mkversion_m, resolve_branch, bind.
  rewrite Hend, Hre. reflexivity.
Qed.

(** C7: when the current branch name does not end in [/master] and the
    branch grammar rejects it, the run writes [Bad branch: <name>] to the error
    stream, nothing to standard output, and exits with status 1; in every
    other case it writes one line, the display form of a tuple, to standard
    output, nothing to the error stream, and exits with status 0. *)
Theorem C7_one_line_or_bad_branch (tags branches : list str) (my_branch_name : str) :
  if bad_branch my_branch_name
  then mkversion tags branches my_branch_name
       = Outcome "" ("Bad branch: " ++ my_branch_name ++ [newline]) 1
  else exists v,
       mkversion tags branches my_branch_name = Outcome (display v ++ [newline]) "" 0
       /\ newline ∉ display v.
Proof.
  unfold bad_branch.
  destruct (endswith my_branch_name "/master") eqn:Hend; cbn [negb andb].
  - unfold mkversion, mkversion_m, resolve_branch, bind. rewrite Hend.
    cbn. destruct (emit_version_prints tags branches DEFAULT_MASTER_VERSION
               (Classes ({[DEFAULT_MASTER_VERSION]} ∪ ∅) ∅)) as [v Hv].
    exists v; split; [exact Hv|apply display_one_line].
  - destruct (re_match branch_regexp (strip my_branch_name)) as [m|] eqn:Hre.
    + rewrite bool_decide_eq_false_2 by discriminate.
      unfold mkversion, mkversion_m, resolve_branch, bind. rewrite Hend, Hre.
      destruct (process_Some m no_classes) as [st' ->].
      destruct (emit_version_prints tags branches (tuple (process_loop 4 1 m)) st') as [v Hv].
      exists v; split; [exact Hv|apply display_one_line].
    + rewrite bool_decide_eq_true_2 by reflexivity.
      apply mkversion_bad_branch; assumption.
Qed.

(** ** The matcher *)

Lemma leading_after p s : leading p s ++ after p s = s.
Proof.
  induction s as [|c s IH]; [reflexivity|].
  cbn. destruct (p c); [cbn; rewrite IH|]; reflexivity.
Qed.

Lemma leading_all p s : Forall (fun c => p c = true) (leading p s).
Proof.
  induction s as [|c s IH]; cbn; [constructor|].
  destruct (p c) eqn:E; constructor; assumption.
Qed.

Lemma take_leading p s : take (length (leading p s)) s = leading p s.
Proof.
  rewrite <- (leading_after p s) at 2.
  rewrite take_app_length. reflexivity.
Qed.

Lemma orelse_None {A} (x y : option A) : orelse x y = None <-> x = None /\ y = None.
Proof. destruct x; cbn; intuition congruence. Qed.

Lemma orelse_l {A} (x y : option A) : (x = None -> y = None) -> orelse x y = x.
Proof. destruct x; cbn; auto. Qed.

(** A greedy repetition whose continuation fails on every character of the
    class stops at the end of the longest run. *)
Lemma star_greedy p k :
  (forall pos c s g, p c = true -> k pos (c :: s) g = None) ->
  forall s pos g,
    star p pos s g k = k (pos + length (leading p s))%nat (after p s) g.
Proof.
  intros Hk; induction s as [|c s IH]; intros pos g; cbn [star leading after].
  - cbn [length]. rewrite Nat.add_0_r. reflexivity.
  - destruct (p c) eqn:E.
    + rewrite (Hk pos c s g E), IH. cbn [length].
      rewrite Nat.add_succ_r.
      destruct (k _ _ _); reflexivity.
    + cbn [length]. rewrite Nat.add_0_r. reflexivity.
Qed.

Lemma plus_greedy p k :
  (forall pos c s g, p c = true -> k pos (c :: s) g = None) ->
  forall s pos g,
    plus p pos s g k =
      match s with
      | c :: _ => if p c then k (pos + length (leading p s))%nat (after p s) g else None
      | [] => None
      end.
Proof.
  intros Hk [|c s] pos g; cbn [plus]; [reflexivity|].
  destruct (p c) eqn:E; [|reflexivity].
  rewrite (star_greedy p k Hk). cbn [leading after length]. rewrite E.
  cbn [length]. rewrite Nat.add_succ_r. reflexivity.
Qed.

(** A repetition fails when its continuation fails at every suffix. *)
Lemma star_fails p k g : forall s pos,
  (forall pos' s', s' `suffix_of` s -> k pos' s' g = None) ->
  star p pos s g k = None.
Proof.
  induction s as [|c s IH]; intros pos Hk; cbn [star].
  - apply Hk. reflexivity.
  - assert (Hs : star p (S pos) s g k = None).
    { apply IH. intros pos' s' Hsuf. apply Hk. apply suffix_cons_r, Hsuf. }
    rewrite Hs. destruct (p c); cbn; apply Hk; reflexivity.
Qed.

Lemma star_blind p k : groups_blind k -> groups_blind (fun pos s g => star p pos s g k).
Proof.
  intros Hk pos s; revert pos; induction s as [|c s IH]; intros pos g g'; cbn [star].
  - apply Hk.
  - destruct (p c); [|apply Hk].
    rewrite !orelse_None. intros [H1 H2]. split; [eapply IH; exact H1|eapply Hk; exact H2].
Qed.

(** Whether a pattern fails never depends on the groups recorded so far. *)
Lemma exec_blind r : forall k, groups_blind k -> groups_blind (fun pos s g => exec r pos s g k).
Proof.
  induction r as [| | |c| | |r1 IH1 r2 IH2|r1 IH1 r2 IH2|n r IH]; intros k Hk pos s g g'; cbn [exec].
  - destruct (pos =? 0)%nat; [apply Hk|reflexivity].
  - destruct s as [|c [|c' s]]; [apply Hk| |reflexivity].
    destruct (chr_eqb c newline); [apply Hk|reflexivity].
  - apply Hk.
  - destruct s as [|c' s]; [reflexivity|]. destruct (chr_eqb c c'); [apply Hk|reflexivity].
  - unfold plus. destruct s as [|c s]; [reflexivity|].
    destruct (is_digit c); [apply (star_blind is_digit k Hk)|reflexivity].
  - apply (star_blind not_newline k Hk).
  - apply (IH1 (fun pos' s' g' => exec r2 pos' s' g' k)). apply IH2, Hk.
  - rewrite !orelse_None. intros [H1 H2].
    split; [eapply (IH1 k Hk); exact H1|eapply (IH2 k Hk); exact H2].
  - apply (IH (fun pos' s' g' => k pos' s' (<[n := take (pos' - pos) s]> g'))).
    intros pos' s' g1 g2. apply Hk.
Qed.

Lemma dotnum_inv s ds rest :
  dotnum s = Some (ds, rest) ->
  exists d s', s = "."%char :: d :: s' /\ is_digit d = true
    /\ ds = leading is_digit (d :: s') /\ rest = after is_digit (d :: s').
Proof.
  destruct s as [|c [|d s']]; cbn [dotnum]; try discriminate.
  destruct (chr_eqb "." c) eqn:Ec; [|discriminate].
  destruct (is_digit d) eqn:Ed; [|discriminate].
  cbn [andb]. intros [= <- <-].
  apply Ascii.eqb_eq in Ec. subst c. exists d, s'. auto.
Qed.

Lemma dotnum_digit_led c s : is_digit c = true -> dotnum (c :: s) = None.
Proof.
  intros Hc. destruct s as [|d s]; [reflexivity|]. cbn [dotnum].
  destruct (chr_eqb "." c) eqn:E; [|reflexivity].
  apply Ascii.eqb_eq in E. subst c. discriminate Hc.
Qed.

Section OptComponent.

Variable n : nat.
Variable K : cont.
Hypothesis HK : tail_ok K.

(** The optional group is deterministic: a dot and a number are always taken
    when they are there. *)
Lemma exec_opt pos s g :
  exec (opt_component n) pos s g K =
    let '(pos', s', g') := opt_step n (pos, s, g) in K pos' s' g'.
Proof.
  destruct HK as (Hdig & Hblind & Hdot).
  unfold opt_component, opt_step. cbn [exec].
  rewrite Nat.sub_diag. cbn [take].
  destruct (dotnum s) as [[ds rest]|] eqn:Ed.
  - destruct (dotnum_inv s ds rest Ed) as (d & s' & -> & Hd & Hds & Hrest).
    cbn [chr_eqb]. change (chr_eqb "." ".") with true. cbv iota.
    rewrite plus_greedy by (intros; apply Hdig; assumption).
    rewrite Hd, <- Hds, <- Hrest.
    replace (S pos + length ds - S pos)%nat with (length ds) by lia.
    replace (S pos + length ds - pos)%nat with (S (length ds)) by lia.
    cbn [take]. rewrite Hds, take_leading, <- Hds.
    apply orelse_l. intros Hx. eapply Hdot; [exact Ed|exact Hx].
  - destruct s as [|c [|d s']]; cbn [orelse]; try reflexivity.
    + destruct (chr_eqb "." c); reflexivity.
    + cbn [dotnum] in Ed. destruct (chr_eqb "." c); [|reflexivity].
      cbn [andb] in Ed. unfold plus.
      destruct (is_digit d); [discriminate Ed|reflexivity].
Qed.

Lemma opt_tail_ok : tail_ok (fun pos s g => exec (opt_component n) pos s g K).
Proof.
  pose proof HK as (Hdig & Hblind & Hdot).
  split; [|split].
  - intros pos c s g Hc. rewrite exec_opt. unfold opt_step.
    rewrite (dotnum_digit_led c s Hc). apply Hdig, Hc.
  - apply exec_blind, Hblind.
  - intros pos s g g' ds rest Ed Hrest.
    rewrite exec_opt in Hrest |- *. unfold opt_step in *. rewrite Ed.
    destruct (dotnum rest) as [[ds' rest']|] eqn:Ed'.
    + eapply Hdot; [exact Ed'|exact Hrest].
    + eapply Hblind; exact Hrest.
Qed.

End OptComponent.

Lemma digit_differs c x : is_digit c = true -> is_digit x = false -> chr_eqb x c = false.
Proof.
  intros Hc Hx. destruct (chr_eqb x c) eqn:E; [|reflexivity].
  apply Ascii.eqb_eq in E. congruence.
Qed.

Lemma digit_differs_r c x : is_digit c = true -> is_digit x = false -> chr_eqb c x = false.
Proof.
  intros Hc Hx. destruct (chr_eqb c x) eqn:E; [|reflexivity].
  apply Ascii.eqb_eq in E. congruence.
Qed.

Lemma accept_blind : groups_blind accept.
Proof. intros pos s g g'; discriminate. Qed.

(** A successful repetition ends in a success of its continuation, with
    the groups it was given. *)
Lemma star_frame p k m g : forall s pos,
  star p pos s g k = Some m -> exists pos' s', k pos' s' g = Some m.
Proof.
  induction s as [|c s IH]; intros pos; cbn [star]; [eauto|].
  destruct (p c); [|eauto].
  destruct (star p (S pos) s g k) eqn:E; cbn [orelse]; [|eauto].
  intros [= ->]. eapply IH; exact E.
Qed.

Lemma tag_tail_ok : tail_ok (fun pos s g => exec tag_tail pos s g accept).
Proof.
  split; [|split].
  - intros pos c s g Hc. unfold tag_tail.
    cbn [exec Lit lit list_ascii_of_string].
    rewrite (digit_differs c "G" Hc eq_refl). reflexivity.
  - apply exec_blind, accept_blind.
  - intros pos s g g' ds rest Ed _.
    destruct (dotnum_inv s ds rest Ed) as (d & s' & -> & _). reflexivity.
Qed.

Lemma branch_tail_ok : tail_ok (fun pos s g => exec branch_tail pos s g accept).
Proof.
  split; [|split].
  - intros pos c s g Hc. unfold branch_tail.
    cbn [exec Lit lit list_ascii_of_string].
    rewrite (digit_differs c "." Hc eq_refl), (digit_differs c "-" Hc eq_refl).
    cbn [orelse]. destruct s; [|reflexivity].
    rewrite (digit_differs_r c newline Hc eq_refl). reflexivity.
  - apply exec_blind, accept_blind.
  - intros pos s g g' ds rest Ed _.
    destruct (dotnum_inv s ds rest Ed) as (d & s' & -> & Hd & _).
    unfold branch_tail. cbn [exec Lit lit list_ascii_of_string].
    rewrite (digit_differs d "x" Hd eq_refl), (digit_differs d "n" Hd eq_refl).
    reflexivity.
Qed.

(** The components, deterministically: the leading digits, then the three
    optional groups. *)
Lemma exec_components T pos s g :
  tail_ok T ->
  exec components_re pos s g T =
    match s with
    | c :: _ =>
        if is_digit c then
          let '(pos', s', g') :=
            opt_step 6 (opt_step 4 (opt_step 2
              ((pos + length (leading is_digit s))%nat, after is_digit s,
               <[1%nat := leading is_digit s]> g))) in
          T pos' s' g'
        else None
    | [] => None
    end.
Proof.
  intros HT.
  pose proof (opt_tail_ok 6 T HT) as H6.
  pose proof (opt_tail_ok 4 _ H6) as H4.
  pose proof (opt_tail_ok 2 _ H4) as H2.
  unfold components_re. cbn [exec].
  rewrite plus_greedy by (intros; apply (proj1 H2); assumption).
  destruct s as [|c s']; [reflexivity|].
  destruct (is_digit c) eqn:Ec; [|reflexivity].
  replace (pos + length (leading is_digit (c :: s')) - pos)%nat
    with (length (leading is_digit (c :: s'))) by lia.
  rewrite take_leading.
  rewrite (exec_opt 2 _ H4).
  destruct (opt_step 2 _) as [[p2 s2] g2].
  rewrite (exec_opt 4 _ H6).
  destruct (opt_step 4 _) as [[p4 s4] g4].
  rewrite (exec_opt 6 _ HT).
  reflexivity.
Qed.

(** ** Writing a tuple back and parsing it again *)

(** From the tag [v1.0GA] the parser gives [(1, 0, None, None)], which
    displays as [1]; [v1GA] parses to [(1, None, None, None)], which differs
    from the first tuple at index 1, where that one is defined. *)
Lemma C6_counterexample :
  fst (process (re_match tag_regexp "v1.0GA") no_classes) = Some (Some 1, Some 0, None, None)
  /\ rebuild Tag "" (display (Some 1, Some 0, None, None)) "GA" = "v1GA"
  /\ fst (process (re_match tag_regexp "v1GA") no_classes) = Some (Some 1, None, None, None)
  /\ vget (Some 1, Some 0, None, None) 1 <> None
  /\ vget (Some 1, None, None, None) 1 <> vget (Some 1, Some 0, None, None) 1.
Proof. repeat split; try (vm_compute; reflexivity); vm_compute; discriminate. Qed.

Lemma process_parse gr s st :
  fst (process (re_match (pattern gr) s) st) = fst <$> parse gr s.
Proof.
  unfold parse. destruct (re_match (pattern gr) s) as [m|]; [|reflexivity].
  destruct (process_Some m st) as [st' ->]. reflexivity.
Qed.

Lemma startswith_take l : forall s, startswith s l = true -> take (length l) s = l.
Proof.
  induction l as [|a l IH]; intros s Hs; [reflexivity|].
  destruct s as [|b s]; [discriminate|]. cbn [startswith] in Hs.
  apply andb_true_iff in Hs as [Hab Hs]. apply Ascii.eqb_eq in Hab. subst b.
  cbn [length take]. rewrite (IH s Hs). reflexivity.
Qed.

Lemma exec_Lit l k : forall pos s g,
  exec (Lit l) pos s g k =
    if startswith s l then k (pos + length l)%nat (drop (length l) s) g else None.
Proof.
  induction l as [|a l IH]; intros pos s g; cbn [Lit exec startswith length drop].
  - rewrite Nat.add_0_r. reflexivity.
  - destruct s as [|b s]; [reflexivity|].
    destruct (chr_eqb a b); cbn [andb]; [|reflexivity].
    rewrite IH, Nat.add_succ_r. reflexivity.
Qed.

(** One alternative of a tail: the literal, then the end of the input. *)
Lemma exec_suffix l pos s g :
  exec (Group 8 (Lit l) >> Eol)%re pos s g accept =
    if startswith s l && at_eol (drop (length l) s) then Some (<[8%nat := l]> g) else None.
Proof.
  cbn [exec]. rewrite exec_Lit.
  destruct (startswith s l) eqn:Hs; cbn [andb]; [|reflexivity].
  replace (pos + length l - pos)%nat with (length l) by lia.
  rewrite (startswith_take l s Hs).
  unfold at_eol, accept. destruct (drop (length l) s) as [|c [|c' s']]; reflexivity.
Qed.

Lemma exec_tag_tail pos s g :
  exec tag_tail pos s g accept =
    if startswith s "GA" && at_eol (drop 2 s) then Some (<[8%nat := lit "GA"]> g) else None.
Proof. unfold tag_tail. rewrite exec_suffix. reflexivity. Qed.

Lemma exec_branch_tail pos s g :
  exec branch_tail pos s g accept =
    orelse (exec (Group 8 (Lit ".x") >> Eol)%re pos s g accept)
      (orelse (exec (Group 8 (Lit ".next") >> Eol)%re pos s g accept)
         (orelse (exec (Group 8 (Lit "-patch") >> Eol)%re pos s g accept)
            (exec (Group 8 (Lit "") >> Eol)%re pos s g accept))).
Proof. reflexivity. Qed.

Lemma tail_records gr pos s g m :
  exec (tail gr) pos s g accept = Some m ->
  exists x, x ∈ suffixes gr /\ m = <[8%nat := x]> g.
Proof.
  destruct gr; cbn [tail suffixes].
  - rewrite exec_tag_tail. destruct (_ && _); [|discriminate].
    intros [= <-]. eexists; split; [|reflexivity]. repeat constructor.
  - rewrite exec_branch_tail, !exec_suffix.
    repeat (destruct (_ && _); cbn [orelse];
            [intros [= <-]; eexists; split; [|reflexivity]; repeat constructor|]).
    discriminate.
Qed.

Lemma tail_accepts gr x pos g :
  x ∈ suffixes gr -> exec (tail gr) pos x g accept = Some (<[8%nat := x]> g).
Proof.
  destruct gr; cbn [tail suffixes]; intros Hx;
    repeat (apply elem_of_cons in Hx as [->|Hx];
            [rewrite ?exec_tag_tail, ?exec_branch_tail, ?exec_suffix; reflexivity|]);
    inversion Hx.
Qed.

Lemma leading_app_digits ds rest :
  Forall (fun c => is_digit c = true) ds -> not_digit_led rest ->
  leading is_digit (ds ++ rest) = ds /\ after is_digit (ds ++ rest) = rest.
Proof.
  intros Hds Hrest. induction Hds as [|c ds Hc _ [IH1 IH2]]; cbn [app leading after].
  - destruct rest as [|c rest]; [split; reflexivity|].
    cbn in Hrest |- *. rewrite Hrest. split; reflexivity.
  - rewrite Hc, IH1, IH2. split; reflexivity.
Qed.

Lemma dotnum_render ds rest :
  ds <> [] -> Forall (fun c => is_digit c = true) ds -> not_digit_led rest ->
  dotnum ("."%char :: ds ++ rest) = Some (ds, rest).
Proof.
  intros Hne Hds Hrest.
  destruct (leading_app_digits ds rest Hds Hrest) as [H1 H2].
  destruct ds as [|d ds]; [contradiction|].
  cbn [app dotnum] in *. inversion Hds as [|? ? Hd _]; subst.
  change (chr_eqb "." ".") with true. rewrite Hd. cbn [andb].
  rewrite H1, H2. reflexivity.
Qed.

Lemma opt_step_dot n pos ds rest g :
  ds <> [] -> Forall (fun c => is_digit c = true) ds -> not_digit_led rest ->
  opt_step n (pos, "."%char :: ds ++ rest, g)
  = ((S pos + length ds)%nat, rest, <[n := "."%char :: ds]> (<[S n := ds]> g)).
Proof.
  intros Hne Hds Hrest. unfold opt_step.
  rewrite (dotnum_render ds rest Hne Hds Hrest). reflexivity.
Qed.

Lemma opt_step_none n pos s g :
  dotnum s = None -> opt_step n (pos, s, g) = (pos, s, <[n := []]> g).
Proof. intros H. unfold opt_step. rewrite H. reflexivity. Qed.

Lemma str_of_int_numeral z : 0 <= z ->
  str_of_int z <> []
  /\ Forall (fun c => is_digit c = true) (str_of_int z)
  /\ int (str_of_int z) = z.
Proof.
  intros Hz. unfold str_of_int.
  destruct (Z.ltb_spec z 0); [lia|]. apply str_nonneg_numeral, Hz.
Qed.

Lemma exec_components_digits T pos ds rest g :
  tail_ok T ->
  ds <> [] -> Forall (fun c => is_digit c = true) ds -> not_digit_led rest ->
  exec components_re pos (ds ++ rest) g T =
    let '(pos', s', g') :=
      opt_step 6 (opt_step 4 (opt_step 2
        ((pos + length ds)%nat, rest, <[1%nat := ds]> g))) in
    T pos' s' g'.
Proof.
  intros HT Hne Hds Hrest. rewrite (exec_components T _ _ _ HT).
  destruct (leading_app_digits ds rest Hds Hrest) as [-> ->].
  destruct ds as [|c ds]; [contradiction|].
  inversion Hds as [|? ? Hc _]; subst. cbn [app]. rewrite Hc. reflexivity.
Qed.

Lemma dot_not_digit_led s : not_digit_led ("."%char :: s).
Proof. reflexivity. Qed.

(** Writing one to four numbers with dots between them and reading them
    back with the components pattern gives the same numbers. *)
Lemma components_render T pos zs rest :
  tail_ok T ->
  zs <> [] -> (length zs <= 4)%nat -> Forall (fun z => 0 <= z) zs ->
  not_digit_led rest -> dotnum rest = None ->
  exists pos' g',
    exec components_re pos (join "." (map str_of_int zs) ++ rest) ∅ T = T pos' rest g'
    /\ forall x, result_of (<[8%nat := x]> g') = tuple (map Some zs).
Proof.
  intros HT Hne Hlen Hall Hrest Hdot.
  assert (Hnum : Forall (fun z => str_of_int z <> []
                   /\ Forall (fun c => is_digit c = true) (str_of_int z)
                   /\ int (str_of_int z) = z) zs).
  { eapply Forall_impl; [exact Hall|]. intros z; apply str_of_int_numeral. }
  destruct zs as [|z1 [|z2 [|z3 [|z4 [|z5 zs]]]]]; [contradiction| | | | |cbn in Hlen; lia];
    repeat match goal with
    | H : Forall _ (_ :: _) |- _ => inversion H; clear H; subst
    | H : Forall _ [] |- _ => clear H
    end;
    repeat match goal with
    | H : _ /\ _ |- _ => destruct H
    end;
    cbn [map]; rewrite ?join_cons; cbn [join];
    repeat match goal with
    | H : int (str_of_int ?z) = ?z |- _ =>
        let ds := fresh "ds" in
        let Heq := fresh "Heq" in
        remember (str_of_int z) as ds eqn:Heq; clear Heq; rewrite <- H; clear H
    end;
    rewrite <- ?app_assoc; cbn [lit list_ascii_of_string app];
    rewrite exec_components_digits by (auto using dot_not_digit_led);
    rewrite ?opt_step_dot by (auto using dot_not_digit_led);
    rewrite ?opt_step_none by assumption;
    eexists _, _; (split; [reflexivity|]); intros x; vm_compute; reflexivity.
Qed.

(** A greedy repetition stops where its continuation succeeds when it fails
    at every later position. *)
Lemma star_here p k g : forall b pos,
  (forall c b' pos' s', b = c :: b' -> s' `suffix_of` b' -> k pos' s' g = None) ->
  star p pos b g k = k pos b g.
Proof.
  intros [|c b] pos Hk; cbn [star]; [reflexivity|].
  destruct (p c); [|reflexivity].
  rewrite (star_fails p k g b (S pos)); [reflexivity|].
  intros pos' s' Hs. eapply Hk; [reflexivity|exact Hs].
Qed.

Lemma star_reach p k g r : forall a b pos,
  Forall (fun c => p c = true) a ->
  (forall c b' pos' s', b = c :: b' -> s' `suffix_of` b' -> k pos' s' g = None) ->
  k (pos + length a)%nat b g = Some r ->
  star p pos (a ++ b) g k = Some r.
Proof.
  induction a as [|c a IH]; intros b pos Ha Hb Hk.
  - cbn [app]. rewrite star_here by exact Hb.
    cbn [length] in Hk. rewrite Nat.add_0_r in Hk. exact Hk.
  - inversion Ha as [|? ? Hc Ha']; subst. cbn [app star]. rewrite Hc.
    rewrite (IH b (S pos) Ha' Hb); [reflexivity|].
    cbn [length] in Hk. rewrite Nat.add_succ_r in Hk. exact Hk.
Qed.

Lemma tail_ok_gr gr : tail_ok (fun p s g => exec (tail gr) p s g accept).
Proof. destruct gr; [exact tag_tail_ok|exact branch_tail_ok]. Qed.

Lemma suffix_shape gr x : x ∈ suffixes gr ->
  not_digit_led x /\ dotnum x = None /\ "/"%char ∉ x.
Proof.
  destruct gr; cbn [suffixes]; intros Hx;
    repeat (apply elem_of_cons in Hx as [->|Hx];
            [split; [reflexivity|split; [reflexivity|]];
             intros H; repeat (apply elem_of_cons in H as [H|H]; [discriminate H|]);
             inversion H|]);
    inversion Hx.
Qed.

Lemma drop_trailing_zeros_prefix l : drop_trailing_zeros l `prefix_of` l.
Proof.
  induction l as [|n l IH]; cbn [drop_trailing_zeros]; [reflexivity|].
  destruct (drop_trailing_zeros l) as [|m r].
  - destruct (n =? 0); [apply prefix_nil|apply prefix_cons, prefix_nil].
  - apply prefix_cons, IH.
Qed.

Lemma defined_prefix_tuple ys :
  (length ys <= 4)%nat -> defined_prefix (components (tuple (map Some ys))) = ys.
Proof.
  intros Hlen.
  destruct ys as [|y1 [|y2 [|y3 [|y4 [|y5 ys]]]]]; try reflexivity. cbn in Hlen; lia.
Qed.

(** ** The shape of parsed tuples *)

Lemma dotnum_digits s ds rest :
  dotnum s = Some (ds, rest) -> 0 <= int ds.
Proof.
  intros Ed. destruct (dotnum_inv s ds rest Ed) as (d & s' & _ & _ & -> & _).
  apply int_nonneg, leading_all.
Qed.

(** What a successful match of the components and a tail leaves in the
    groups: between one and four numbers in a row in the odd groups, and one
    of the grammar's suffixes in group 8. *)
Lemma components_result gr pos s m :
  exec components_re pos s ∅ (fun p s' g' => exec (tail gr) p s' g' accept) = Some m ->
  exists ys x, ys <> [] /\ (length ys <= 4)%nat /\ Forall (fun y => 0 <= y) ys
    /\ result_of m = tuple (map Some ys)
    /\ m !! 8%nat = Some x /\ x ∈ suffixes gr.
Proof.
  rewrite (exec_components _ pos s ∅ (tail_ok_gr gr)).
  destruct s as [|c s']; [discriminate|].
  destruct (is_digit c) eqn:Ec; [|discriminate].
  pose proof (int_nonneg _ (leading_all is_digit (c :: s'))) as H1.
  set (d1 := leading is_digit (c :: s')) in *.
  unfold opt_step.
  destruct (dotnum (after is_digit (c :: s'))) as [[d2 s2]|] eqn:E2.
  - pose proof (dotnum_digits _ _ _ E2) as H2.
    destruct (dotnum s2) as [[d3 s3]|] eqn:E3.
    + pose proof (dotnum_digits _ _ _ E3) as H3.
      destruct (dotnum s3) as [[d4 s4]|] eqn:E4.
      * pose proof (dotnum_digits _ _ _ E4) as H4.
        intros H. apply tail_records in H as (x & Hx & ->).
        exists [int d1; int d2; int d3; int d4], x.
        split; [discriminate|split; [cbn; lia|split; [repeat constructor; assumption|]]].
        split; [vm_compute; reflexivity|split; [apply lookup_insert_eq|exact Hx]].
      * intros H. apply tail_records in H as (x & Hx & ->).
        exists [int d1; int d2; int d3], x.
        split; [discriminate|split; [cbn; lia|split; [repeat constructor; assumption|]]].
        split; [vm_compute; reflexivity|split; [apply lookup_insert_eq|exact Hx]].
    + rewrite E3.
      intros H. apply tail_records in H as (x & Hx & ->).
      exists [int d1; int d2], x.
      split; [discriminate|split; [cbn; lia|split; [repeat constructor; assumption|]]].
      split; [vm_compute; reflexivity|split; [apply lookup_insert_eq|exact Hx]].
  - rewrite !E2.
    intros H. apply tail_records in H as (x & Hx & ->).
    exists [int d1], x.
    split; [discriminate|split; [cbn; lia|split; [repeat constructor; assumption|]]].
    split; [vm_compute; reflexivity|split; [apply lookup_insert_eq|exact Hx]].
Qed.

Lemma re_match_tag s :
  re_match tag_regexp s =
    match s with
    | c :: s1 =>
        if chr_eqb "v" c
        then exec components_re 1 s1 ∅ (fun p s' g' => exec (tail Tag) p s' g' accept)
        else None
    | [] => None
    end.
Proof. destruct s; reflexivity. Qed.

Lemma re_match_branch s :
  re_match branch_regexp s =
    star not_newline 0 s ∅ (fun p s' g' =>
      match s' with
      | c :: s1 =>
          if chr_eqb "/" c
          then exec components_re (S p) s1 g' (fun p s' g' => exec (tail Branch) p s' g' accept)
          else None
      | [] => None
      end).
Proof. reflexivity. Qed.

Lemma match_result gr s m :
  re_match (pattern gr) s = Some m ->
  exists ys x, ys <> [] /\ (length ys <= 4)%nat /\ Forall (fun y => 0 <= y) ys
    /\ result_of m = tuple (map Some ys)
    /\ m !! 8%nat = Some x /\ x ∈ suffixes gr.
Proof.
  destruct gr; cbn [pattern].
  - rewrite re_match_tag. destruct s as [|c s1]; [discriminate|].
    destruct (chr_eqb "v" c); [|discriminate].
    apply components_result.
  - rewrite re_match_branch. intros H.
    apply star_frame in H as (pos' & s' & H).
    destruct s' as [|c s1]; [discriminate|].
    destruct (chr_eqb "/" c); [|discriminate].
    revert H. apply components_result.
Qed.

Lemma tuple_prefix_shaped ys :
  ys <> [] -> (length ys <= 4)%nat -> Forall (fun y => 0 <= y) ys ->
  prefix_shaped (tuple (map Some ys)).
Proof.
  intros Hne Hlen Hall.
  destruct ys as [|y1 ys]; [contradiction|].
  split.
  - exists y1. split; [reflexivity|]. inversion Hall; assumption.
  - intros i j Hij.
    destruct ys as [|y2 [|y3 [|y4 [|y5 ys]]]]; [| | | |cbn in Hlen; lia];
      destruct i as [|[|[|[|i]]]]; try lia;
      destruct j as [|[|[|[|j]]]]; try lia; cbn; congruence.
Qed.

Lemma process_result r s st v st' :
  process (re_match r s) st = (Some v, st') ->
  exists m, re_match r s = Some m /\ v = result_of m.
Proof.
  destruct (re_match r s) as [m|]; [|discriminate].
  destruct (process_Some m st) as [st1 ->].
  intros [= <- _]. eauto.
Qed.

(** C8: every tuple [process] returns for a name matched by the tag
    pattern or by the branch pattern has a defined, non-negative major
    component, and no [None] component followed by a defined one. *)
Theorem C8_parsed_tuples_prefix_shaped (s : str) (st st' : classes) (v : version) :
  process (re_match tag_regexp s) st = (Some v, st')
  \/ process (re_match branch_regexp s) st = (Some v, st') ->
  prefix_shaped v.
Proof.
  intros [H|H]; apply process_result in H as (m & Hm & ->).
  - destruct (match_result Tag s m Hm) as (ys & x & Hne & Hlen & Hall & -> & _).
    apply tuple_prefix_shaped; assumption.
  - destruct (match_result Branch s m Hm) as (ys & x & Hne & Hlen & Hall & -> & _).
    apply tuple_prefix_shaped; assumption.
Qed.

Lemma C8_parsed_tuples_prefix_shaped_witness :
  prefix_shaped (Some 1, Some 2, None, None).
Proof.
  apply (C8_parsed_tuples_prefix_shaped "origin/1.2.x" no_classes
           (Classes {[ (Some 1, Some 2, None, None) ]} ∅) (Some 1, Some 2, None, None)).
  right. vm_compute. reflexivity.
Defined.

(** ** Names without a slash *)

Lemma lstrip_subset c s : c ∈ lstrip s -> c ∈ s.
Proof.
  induction s as [|a s IH]; cbn [lstrip]; [auto|].
  destruct (is_space a); [|auto].
  intros H. apply elem_of_cons. right. exact (IH H).
Qed.

Lemma elem_of_rev (c : ascii) s : c ∈ rev s <-> c ∈ s.
Proof. rewrite !list_elem_of_In. symmetry. apply in_rev. Qed.

Lemma strip_subset c s : c ∈ strip s -> c ∈ s.
Proof.
  unfold strip, rstrip. rewrite elem_of_rev. intros H.
  apply lstrip_subset in H. rewrite elem_of_rev in H.
  apply lstrip_subset, H.
Qed.

Lemma startswith_subset p : forall s c, startswith s p = true -> c ∈ p -> c ∈ s.
Proof.
  induction p as [|a p IH]; intros s c Hs Hc; [inversion Hc|].
  destruct s as [|b s]; [discriminate|]. cbn [startswith] in Hs.
  apply andb_true_iff in Hs as [Hab Hs]. apply Ascii.eqb_eq in Hab. subst b.
  apply elem_of_cons in Hc as [->|Hc]; [left|right; eapply IH; eassumption].
Qed.

Lemma endswith_subset s p c : endswith s p = true -> c ∈ p -> c ∈ s.
Proof.
  unfold endswith. intros Hs Hc.
  rewrite <- elem_of_rev. eapply startswith_subset; [exact Hs|].
  rewrite elem_of_rev. exact Hc.
Qed.

Lemma branch_needs_slash s : "/"%char ∉ s -> re_match branch_regexp s = None.
Proof.
  intros Hno. rewrite re_match_branch. apply star_fails.
  intros pos' s' [k Hk]. destruct s' as [|c s1]; [reflexivity|].
  destruct (chr_eqb "/" c) eqn:E; [|reflexivity].
  apply Ascii.eqb_eq in E. subst c. exfalso. apply Hno.
  rewrite Hk. apply elem_of_app. right. left.
Qed.

(** C9: the branch pattern rejects every name without a slash, such a name
    does not end in [/master] either, and a run with it as the current
    branch name stops with the bad-branch diagnostic and status 1. *)
Theorem C9_slash_free_branch_is_fatal (s : str) (tags branches : list str) :
  "/"%char ∉ s ->
  re_match branch_regexp s = None
  /\ endswith s "/master" = false
  /\ mkversion tags branches s = Outcome "" ("Bad branch: " ++ s ++ [newline]) 1.
Proof.
  intros Hno.
  assert (Hend : endswith s "/master" = false).
  { destruct (endswith s "/master") eqn:E; [|reflexivity].
    exfalso. apply Hno. eapply endswith_subset; [exact E|]. left. }
  assert (Hstrip : re_match branch_regexp (strip s) = None).
  { apply branch_needs_slash. intros H. apply Hno, strip_subset, H. }
  split; [apply branch_needs_slash, Hno|split; [exact Hend|]].
  apply mkversion_bad_branch; assumption.
Qed.

Lemma C9_slash_free_branch_is_fatal_witness :
  re_match branch_regexp "master" = None
  /\ endswith "master" "/master" = false
  /\ mkversion [] [] "master" = Outcome "" ("Bad branch: " ++ "master" ++ [newline]) 1.
Proof.
  apply (C9_slash_free_branch_is_fatal "master" [] []).
  vm_compute. intros H. repeat (apply elem_of_cons in H as [H|H]; [discriminate H|]).
  inversion H.
Defined.


(** ** The round trip *)

Lemma parse_inv gr s t sfx :
  parse gr s = Some (t, sfx) ->
  exists ys, ys <> [] /\ (length ys <= 4)%nat /\ Forall (fun y => 0 <= y) ys
    /\ t = tuple (map Some ys) /\ sfx ∈ suffixes gr.
Proof.
  unfold parse. destruct (re_match (pattern gr) s) as [m|] eqn:Hm; [|discriminate].
  destruct (match_result gr s m Hm) as (ys & x & Hne & Hlen & Hall & Hres & H8 & Hx).
  rewrite H8, Hres. cbn [default]. intros [= <- <-]. exists ys. auto.
Qed.

Lemma version_char_no_slash body :
  Forall (fun c => version_char c = true) body -> "/"%char ∉ body.
Proof.
  intros Hall Hin. rewrite Forall_forall in Hall. apply Hall in Hin. discriminate Hin.
Qed.

Lemma not_newline_all path :
  newline ∉ path -> Forall (fun c => not_newline c = true) path.
Proof.
  intros Hno. apply Forall_forall. intros c Hc. unfold not_newline.
  destruct (chr_eqb c newline) eqn:E; [|reflexivity].
  apply Ascii.eqb_eq in E. subst c. contradiction.
Qed.

(** Numbers written with dots between them, between what the grammar wants
    around them, parse to these numbers and the suffix. *)
Lemma parse_rebuild gr path zs sfx :
  zs <> [] -> (length zs <= 4)%nat -> Forall (fun z => 0 <= z) zs ->
  sfx ∈ suffixes gr -> newline ∉ path ->
  "/"%char ∉ join "." (map str_of_int zs) ->
  parse gr (rebuild gr path (join "." (map str_of_int zs)) sfx)
  = Some (tuple (map Some zs), sfx).
Proof.
  intros Hne Hlen Hall Hsfx Hpath Hslash.
  destruct (suffix_shape gr sfx Hsfx) as (Hled & Hdot & Hsl).
  unfold parse. destruct gr; cbn [pattern rebuild].
  - rewrite re_match_tag.
    change (lit "v" ++ ?x) with ("v"%char :: x). cbv beta iota.
    change (chr_eqb "v" "v") with true. cbv beta iota.
    destruct (components_render _ 1 zs sfx (tail_ok_gr Tag) Hne Hlen Hall Hled Hdot)
      as (pos' & g' & -> & Hres).
    rewrite (tail_accepts Tag sfx pos' g' Hsfx). cbv beta iota.
    rewrite Hres, lookup_insert_eq. reflexivity.
  - rewrite re_match_branch.
    change (lit "/" ++ ?x) with ("/"%char :: x).
    destruct (components_render _ (S (0 + length path)) zs sfx
                (tail_ok_gr Branch) Hne Hlen Hall Hled Hdot)
      as (pos' & g' & Hexec & Hres).
    rewrite (star_reach _ _ _ (<[8%nat := sfx]> g') path _ 0%nat (not_newline_all path Hpath)).
    + cbv beta iota. rewrite Hres, lookup_insert_eq. reflexivity.
    + intros c b' pos1 s' [= <- <-] [k Hk].
      destruct s' as [|c s1]; [reflexivity|].
      destruct (chr_eqb "/" c) eqn:E; [|reflexivity].
      apply Ascii.eqb_eq in E. subst c. exfalso.
      assert (Hin : "/"%char ∈ k ++ "/"%char :: s1).
      { apply elem_of_app. right. left. }
      rewrite <- Hk in Hin.
      apply elem_of_app in Hin as [Hin|Hin]; [exact (Hslash Hin)|exact (Hsl Hin)].
    + change (chr_eqb "/" "/") with true. cbv iota.
      rewrite Hexec. apply (tail_accepts Branch sfx pos' g' Hsfx).
Qed.

Lemma drop_trailing_zeros_nonneg l :
  Forall (fun y => 0 <= y) l -> Forall (fun y => 0 <= y) (drop_trailing_zeros l).
Proof.
  intros H. destruct (drop_trailing_zeros_prefix l) as [k Hk].
  rewrite Hk in H. apply Forall_app in H. apply H.
Qed.

Lemma drop_trailing_zeros_length l : (length (drop_trailing_zeros l) <= length l)%nat.
Proof. apply prefix_length, drop_trailing_zeros_prefix. Qed.

Lemma vget_tuple l i :
  vget (tuple l) i = default None (l !! Nat.min i 3).
Proof. destruct i as [|[|[|[|i]]]]; reflexivity. Qed.

Lemma lookup_map_Some (l : list Z) i : map Some l !! i = Some <$> l !! i.
Proof.
  revert i; induction l as [|x l IH]; intros [|i]; cbn; auto.
Qed.

Lemma normalize_tuple ys :
  (length ys <= 4)%nat ->
  normalize (tuple (map Some ys)) = tuple (map Some (drop_trailing_zeros ys)).
Proof. intros Hlen. unfold normalize. rewrite defined_prefix_tuple by exact Hlen. reflexivity. Qed.

Lemma vget_normalize ys i :
  (length ys <= 4)%nat -> (i < 4)%nat ->
  vget (tuple (map Some (drop_trailing_zeros ys))) i =
    if (i <? length (drop_trailing_zeros ys))%nat then vget (tuple (map Some ys)) i else None.
Proof.
  intros Hlen Hi. rewrite !vget_tuple, !lookup_map_Some.
  replace (Nat.min i 3) with i by lia.
  destruct (drop_trailing_zeros_prefix ys) as [k Hk].
  destruct (Nat.ltb_spec i (length (drop_trailing_zeros ys))) as [Hlt|Hge].
  - rewrite Hk at 2. rewrite lookup_app_l by exact Hlt. reflexivity.
  - rewrite lookup_ge_None_2 by exact Hge. reflexivity.
Qed.

(** C6, as the code has it: for a tuple [t] the parser produced from a tag or branch
    name, with at least one nonzero component, parsing the display form of
    [t] again, with [v] before it and the same suffix after it (for a branch:
    any path and a slash before it), gives [t] with its trailing run of zero
    components turned into [None], and the same suffix: the result agrees
    with [t] at every index before that run and is [None] from there on. *)
Theorem C6_round_trip_up_to_trailing_zeros (gr : grammar) (s path : str)
    (t : version) (sfx : str) :
  parse gr s = Some (t, sfx) ->
  newline ∉ path ->
  drop_trailing_zeros (defined_prefix (components t)) <> [] ->
  parse gr (rebuild gr path (display t) sfx) = Some (normalize t, sfx)
  /\ forall i : nat, (i < 4)%nat ->
       vget (normalize t) i =
         if (i <? length (drop_trailing_zeros (defined_prefix (components t))))%nat
         then vget t i else None.
Proof.
  intros Hparse Hpath Hnz.
  destruct (parse_inv gr s t sfx Hparse) as (ys & Hne & Hlen & Hall & -> & Hsfx).
  pose proof (display_chars (tuple (map Some ys))) as Hchars.
  rewrite display_is_spec in Hchars |- *. unfold display_spec in *.
  rewrite normalize_tuple by exact Hlen.
  rewrite defined_prefix_tuple in * by exact Hlen.
  split.
  - apply parse_rebuild; auto.
    + pose proof (drop_trailing_zeros_length ys). lia.
    + apply drop_trailing_zeros_nonneg, Hall.
    + apply version_char_no_slash, Hchars.
  - intros i Hi. apply vget_normalize; assumption.
Qed.

Lemma C6_round_trip_up_to_trailing_zeros_witness :
  parse Branch (rebuild Branch "remotes/origin" (display (Some 1, Some 2, Some 0, None)) ".x")
  = Some (normalize (Some 1, Some 2, Some 0, None), lit ".x")
  /\ forall i : nat, (i < 4)%nat ->
       vget (normalize (Some 1, Some 2, Some 0, None)) i =
         if Nat.ltb i (length (drop_trailing_zeros
                                 (defined_prefix (components (Some 1, Some 2, Some 0, None)))))
         then vget (Some 1, Some 2, Some 0, None) i else None.
Proof.
  apply (C6_round_trip_up_to_trailing_zeros Branch "origin/1.2.0.x" "remotes/origin"
           (Some 1, Some 2, Some 0, None) ".x").
  - vm_compute. reflexivity.
  - vm_compute. intros H.
    repeat (apply elem_of_cons in H as [H|H]; [discriminate H|]). inversion H.
  - vm_compute. discriminate.
Defined.

(** * Further properties of the code *)

(** ** More on [is_ga] *)

Lemma is_ga_unfold ga a b c d :
  is_ga ga (a, b, c, d) =
    (in_dict (a, b, c, d) ga
     || negb (positive d)
        && (in_dict (a, b, c, None) ga
            || negb (positive c)
               && (in_dict (a, b, None, None) ga
                   || negb (positive b) && in_dict (a, None, None, None) ga))).
Proof.
  unfold is_ga; cbn [is_ga_loop vget vset].
  repeat match goal with
  | |- context [in_dict ?v ga] => destruct (in_dict v ga)
  | |- context [positive ?x] => destruct (positive x)
  end; reflexivity.
Qed.

Lemma in_dict_true (v : version) (d : gset version) : in_dict v d = true <-> v ∈ d.
Proof. unfold in_dict. apply bool_decide_eq_true. Qed.

(** X1: [is_ga] answers true only when the tuple or one of its three rollups is
    a recorded GA tag. *)
Theorem is_ga_needs_recorded_rollup (ga : gset version) (v : version) :
  is_ga ga v = true -> exists p, p ∈ rollups v /\ p ∈ ga.
Proof.
  destruct v as [[[a b] c] d]. rewrite is_ga_unfold. cbn [rollups].
  repeat match goal with
  | |- context [in_dict ?v ga] => destruct (in_dict v ga) eqn:?
  end;
  repeat match goal with
  | H : in_dict _ _ = true |- _ => apply in_dict_true in H
  end;
  cbn; rewrite ?andb_false_r; try discriminate; intros _;
  eexists; (split; [|eassumption]); set_solver.
Qed.

Lemma is_ga_needs_recorded_rollup_witness :
  exists p, p ∈ rollups (Some 1, Some 2, Some 0, Some 0)
    /\ p ∈ ({[ (Some 1, Some 2, None, None) ]} : gset version).
Proof.
  apply (is_ga_needs_recorded_rollup {[ (Some 1, Some 2, None, None) ]}
           (Some 1, Some 2, Some 0, Some 0)).
  vm_compute. reflexivity.
Defined.

(** X2: Recording more GA tags never turns a GA answer into a non-GA one, and a
    recorded tuple is always GA. *)
Theorem is_ga_monotone (ga ga' : gset version) (v : version) :
  ga ⊆ ga' ->
  (is_ga ga v = true -> is_ga ga' v = true) /\ (v ∈ ga -> is_ga ga v = true).
Proof.
  intros Hsub. destruct v as [[[a b] c] d]. rewrite !is_ga_unfold. split.
  - assert (Hin : forall p, in_dict p ga = true -> in_dict p ga' = true).
    { intros p Hp. apply in_dict_true. apply in_dict_true in Hp. set_solver. }
    repeat match goal with
    | |- context [in_dict ?p ga] =>
        let E := fresh "E" in
        destruct (in_dict p ga) eqn:E; [rewrite (Hin p E)|]
    end;
    repeat match goal with
    | |- context [positive ?x] => destruct (positive x)
    end; cbn; rewrite ?orb_true_r, ?andb_false_r; try discriminate; auto.
  - intros Hv. apply in_dict_true in Hv. rewrite Hv. reflexivity.
Qed.

Lemma is_ga_monotone_witness :
  (is_ga {[ (Some 1, None, None, None) ]} (Some 1, Some 0, None, None) = true ->
   is_ga ({[ (Some 1, None, None, None) ]} ∪ {[ (Some 2, None, None, None) ]})
     (Some 1, Some 0, None, None) = true)
  /\ ((Some 1, Some 0, None, None) ∈ ({[ (Some 1, None, None, None) ]} : gset version) ->
      is_ga {[ (Some 1, None, None, None) ]} (Some 1, Some 0, None, None) = true).
Proof.
  apply (is_ga_monotone {[ (Some 1, None, None, None) ]}
           ({[ (Some 1, None, None, None) ]} ∪ {[ (Some 2, None, None, None) ]})).
  set_solver.
Defined.

(** ** More on [is_same_base_version] *)

(** The whole function, at the first wildcard [i] of [ref]. *)
Lemma is_same_base_version_at ga ref other i :
  first_wildcard ref = Some i ->
  is_same_base_version ga ref other =
    if agree_before i ref other
    then Some (match vget other i with
               | Some o => vset ref i (Some (o + 1))
               | None => if is_ga ga other then vset ref i (Some 1) else ref
               end)
    else None.
Proof.
  destruct ref as [[[a b] c] d], other as [[[a' b'] c'] d'].
  unfold first_wildcard, agree_before, is_same_base_version.
  intros Hi.
  destruct a, b, c, d; cbn in Hi; try discriminate Hi;
    injection Hi as <-;
    cbn [is_same_base_version_loop vget vset components take];
    repeat (case_bool_decide; simplify_eq);
    repeat match goal with
    | |- context [match ?x with _ => _ end] => destruct x
    end; try congruence; reflexivity.
Qed.

Lemma is_same_base_version_no_wildcard ga ref other :
  first_wildcard ref = None -> is_same_base_version ga ref other = None.
Proof.
  destruct ref as [[[[a|] [b|]] [c|]] [d|]], other as [[[a' b'] c'] d'];
    cbn; try discriminate. intros _.
  unfold is_same_base_version. cbn [is_same_base_version_loop vget].
  repeat (case_bool_decide; [|reflexivity]). reflexivity.
Qed.

(** X3: A branch tuple with all four components defined matches no candidate:
    the loop runs off its end and the call returns the sentinel. *)
Theorem pinned_ref_never_matches (ga : gset version) (a b c d : Z) (other : version) :
  is_same_base_version ga (Some a, Some b, Some c, Some d) other = None
  /\ forall versions, scan ga (Some a, Some b, Some c, Some d) versions None = None.
Proof.
  split; [apply is_same_base_version_no_wildcard; reflexivity|].
  induction versions as [|v versions IH]; [reflexivity|].
  cbn [scan]. rewrite is_same_base_version_no_wildcard by reflexivity. exact IH.
Qed.

(** X4: A candidate matches exactly when it agrees with [ref] at every index
    below the first wildcard of [ref]; what lies at or after the wildcard in
    the candidate, and the GA dictionary, play no part in that. *)
Theorem match_iff_base_agrees (ga : gset version) (ref other : version) (i : nat) :
  first_wildcard ref = Some i ->
  (is_same_base_version ga ref other <> None <-> agree_before i ref other = true).
Proof.
  intros Hi. rewrite (is_same_base_version_at ga ref other i Hi).
  destruct (agree_before i ref other); split; congruence.
Qed.

Lemma match_iff_base_agrees_witness :
  is_same_base_version ∅ (Some 1, Some 2, None, None) (Some 1, Some 2, Some 7, None) <> None
  <-> agree_before 2 (Some 1, Some 2, None, None) (Some 1, Some 2, Some 7, None) = true.
Proof.
  apply (match_iff_base_agrees ∅ (Some 1, Some 2, None, None) (Some 1, Some 2, Some 7, None) 2).
  reflexivity.
Defined.

(** X5: When the candidate is defined at the first wildcard of [ref], a match
    is [ref] with the candidate's component plus one there, whatever the GA
    dictionary holds. *)
Theorem match_increments_candidate (ga : gset version) (ref other : version)
    (i : nat) (o : Z) :
  first_wildcard ref = Some i ->
  agree_before i ref other = true ->
  vget other i = Some o ->
  is_same_base_version ga ref other = Some (vset ref i (Some (o + 1))).
Proof.
  intros Hi Hagree Ho.
  rewrite (is_same_base_version_at ga ref other i Hi), Hagree, Ho. reflexivity.
Qed.

Lemma match_increments_candidate_witness :
  is_same_base_version ∅ (Some 1, None, None, None) (Some 1, Some 2, Some 5, None)
  = Some (vset (Some 1, None, None, None) 1 (Some (2 + 1))).
Proof.
  apply (match_increments_candidate ∅ (Some 1, None, None, None)
           (Some 1, Some 2, Some 5, None) 1 2); reflexivity.
Defined.

(** X6: When the candidate is undefined at the first wildcard of [ref] and is
    GA, a match is [ref] with 1 there. *)
Theorem match_after_ga_starts_at_one (ga : gset version) (ref other : version) (i : nat) :
  first_wildcard ref = Some i ->
  agree_before i ref other = true ->
  vget other i = None ->
  is_ga ga other = true ->
  is_same_base_version ga ref other = Some (vset ref i (Some 1)).
Proof.
  intros Hi Hagree Ho Hga.
  rewrite (is_same_base_version_at ga ref other i Hi), Hagree, Ho, Hga. reflexivity.
Qed.

Lemma match_after_ga_starts_at_one_witness :
  is_same_base_version {[ (Some 1, Some 2, None, None) ]}
    (Some 1, Some 2, None, None) (Some 1, Some 2, None, None)
  = Some (vset (Some 1, Some 2, None, None) 2 (Some 1)).
Proof.
  apply (match_after_ga_starts_at_one {[ (Some 1, Some 2, None, None) ]}
           (Some 1, Some 2, None, None) (Some 1, Some 2, None, None) 2);
    vm_compute; reflexivity.
Defined.

(** X7: A match never touches the base: the result differs from [ref] at most
    at the first wildcard of [ref], and below it the result, [ref] and the
    candidate are the same. *)
Theorem match_keeps_base (ga : gset version) (ref other r : version) :
  is_same_base_version ga ref other = Some r ->
  exists i, first_wildcard ref = Some i
    /\ (forall j : nat, (j < 4)%nat -> j <> i -> vget r j = vget ref j)
    /\ (forall j : nat, (j < i)%nat -> vget r j = vget other j).
Proof.
  destruct (first_wildcard ref) as [i|] eqn:Hi.
  - rewrite (is_same_base_version_at ga ref other i Hi).
    destruct (agree_before i ref other) eqn:Hagree; [|discriminate].
    intros [= <-]. exists i. split; [reflexivity|].
    destruct ref as [[[a b] c] d], other as [[[a' b'] c'] d'].
    unfold agree_before in Hagree. apply bool_decide_eq_true in Hagree.
    unfold first_wildcard in Hi.
    destruct a, b, c, d; cbn in Hi; try discriminate Hi; injection Hi as <-;
      cbn [components take] in Hagree; simplify_eq;
      (split; intros j Hj;
       [intros Hne|];
       destruct j as [|[|[|[|j]]]]; try lia; try congruence;
       repeat match goal with
       | |- context [match ?x with Some _ => _ | None => _ end] => destruct x
       | |- context [if ?x then _ else _] => destruct x
       end; reflexivity).
  - rewrite (is_same_base_version_no_wildcard ga ref other Hi). discriminate.
Qed.

Lemma compare_succ o : (o ?= o + 1) = Lt.
Proof. apply Z.compare_lt_iff. lia. Qed.

(** X8: Whenever a match changes [ref], the result sorts strictly above the
    candidate it was computed from. *)
Theorem increment_is_ahead_of_candidate (ga : gset version) (ref other r : version) :
  is_same_base_version ga ref other = Some r ->
  r <> ref ->
  cmp_components (components other) (components r) = Lt.
Proof.
  destruct (first_wildcard ref) as [i|] eqn:Hi;
    [|rewrite (is_same_base_version_no_wildcard ga ref other Hi); discriminate].
  rewrite (is_same_base_version_at ga ref other i Hi).
  destruct (agree_before i ref other) eqn:Hagree; [|discriminate].
  intros [= <-] Hne.
  destruct ref as [[[a b] c] d], other as [[[a' b'] c'] d'].
  unfold agree_before in Hagree. apply bool_decide_eq_true in Hagree.
  unfold first_wildcard in Hi.
  destruct a, b, c, d; cbn in Hi; try discriminate Hi; injection Hi as <-;
    cbn [components take] in Hagree; simplify_eq;
    cbn [vget vset] in *;
    repeat match goal with
    | |- context [match ?x with Some _ => _ | None => _ end] => destruct x
    | H : context [if ?x then _ else _] |- _ => destruct x
    end; try congruence;
    cbn [components cmp_components cmp_component];
    rewrite ?Z.compare_refl, ?compare_succ; reflexivity.
Qed.

Lemma increment_is_ahead_of_candidate_witness :
  cmp_components (components (Some 1, Some 2, Some 5, None))
                 (components (Some 1, Some 3, None, None)) = Lt.
Proof.
  apply (increment_is_ahead_of_candidate ∅ (Some 1, None, None, None)
           (Some 1, Some 2, Some 5, None) (Some 1, Some 3, None, None)).
  - reflexivity.
  - discriminate.
Defined.

Lemma match_keeps_base_witness :
  exists i, first_wildcard (Some 1, None, None, None) = Some i
    /\ (forall j : nat, (j < 4)%nat -> j <> i ->
          vget (Some 1, Some 3, None, None) j = vget (Some 1, None, None, None) j)
    /\ (forall j : nat, (j < i)%nat ->
          vget (Some 1, Some 3, None, None) j = vget (Some 1, Some 2, Some 5, None) j).
Proof.
  apply (match_keeps_base ∅ (Some 1, None, None, None) (Some 1, Some 2, Some 5, None)
           (Some 1, Some 3, None, None)).
  reflexivity.
Defined.

(** ** More on the scan *)

Lemma scan_started ga ref versions c :
  exists r, scan ga ref versions (Some c) = Some r.
Proof.
  revert c; induction versions as [|v versions IH]; intros c; cbn [scan]; [eauto|].
  destruct (is_same_base_version ga ref v); [apply IH|eauto].
Qed.

Lemma scan_None_inv ga ref versions :
  scan ga ref versions None = None -> Forall (no_match ga ref) versions.
Proof.
  induction versions as [|v versions IH]; cbn [scan]; [constructor|].
  destruct (is_same_base_version ga ref v) as [c|] eqn:Hv.
  - destruct (scan_started ga ref versions c) as [r ->]. discriminate.
  - intros H. constructor; [exact Hv|apply IH, H].
Qed.

(** X9: The scan ends without a result exactly when no candidate matches; this
    is when the driver falls back to the branch's own tuple. *)
Theorem scan_finds_nothing_iff (ga : gset version) (ref : version) (versions : list version) :
  scan ga ref versions None = None <-> Forall (no_match ga ref) versions.
Proof.
  split; [apply scan_None_inv|].
  induction 1 as [|v versions Hv _ IH]; cbn [scan]; [reflexivity|].
  unfold no_match in Hv. rewrite Hv. exact IH.
Qed.

Lemma scan_origin ga ref versions : forall final r,
  scan ga ref versions final = Some r ->
  final = Some r \/ exists v, v ∈ versions /\ is_same_base_version ga ref v = Some r.
Proof.
  induction versions as [|v versions IH]; intros final r; cbn [scan]; [auto|].
  destruct (is_same_base_version ga ref v) as [c|] eqn:Hv.
  - intros H. apply IH in H as [[= ->]|(w & Hw & Hr)]; right.
    + exists v. split; [left|exact Hv].
    + exists w. split; [right; exact Hw|exact Hr].
  - destruct final as [f|]; [auto|].
    intros H. apply IH in H as [H|(w & Hw & Hr)]; [discriminate|].
    right. exists w. split; [right; exact Hw|exact Hr].
Qed.

(** X10: A result of the scan is always what [is_same_base_version] computed for
    one of the candidates. *)
Theorem scan_result_from_candidate (ga : gset version) (ref r : version)
    (versions : list version) :
  scan ga ref versions None = Some r ->
  exists v, v ∈ versions /\ is_same_base_version ga ref v = Some r.
Proof.
  intros H. apply scan_origin in H as [H|H]; [discriminate|exact H].
Qed.

Lemma scan_result_from_candidate_witness :
  exists v, v ∈ [(Some 0, Some 5, None, None); (Some 1, Some 2, None, None)]
    /\ is_same_base_version ∅ (Some 1, None, None, None) v = Some (Some 1, Some 3, None, None).
Proof.
  apply (scan_result_from_candidate ∅ (Some 1, None, None, None) (Some 1, Some 3, None, None)
           [(Some 0, Some 5, None, None); (Some 1, Some 2, None, None)]).
  reflexivity.
Defined.

(** ** The order of tuples and [sort] *)

Lemma cmp_component_spec x y :
  match cmp_component x y with
  | Eq => x = y
  | Lt => component_lt x y
  | Gt => component_lt y x
  end.
Proof.
  destruct x as [a|], y as [b|]; cbn; auto.
  destruct (Z.compare_spec a b); [congruence|assumption|assumption].
Qed.

Lemma component_lt_trans x y z : component_lt x y -> component_lt y z -> component_lt x z.
Proof. destruct x, y, z; cbn; try tauto; lia. Qed.

Lemma component_lt_irrefl x : ~ component_lt x x.
Proof. destruct x; cbn; [lia|tauto]. Qed.

Lemma cmp_components_Eq l1 : forall l2, cmp_components l1 l2 = Eq -> l1 = l2.
Proof.
  induction l1 as [|x l1 IH]; intros [|y l2]; cbn; try discriminate; [reflexivity|].
  pose proof (cmp_component_spec x y) as Hxy.
  destruct (cmp_component x y); try discriminate.
  intros H. subst y. rewrite (IH l2 H). reflexivity.
Qed.

Lemma cmp_components_flip l1 : forall l2,
  cmp_components l1 l2 = Gt -> cmp_components l2 l1 = Lt.
Proof.
  induction l1 as [|x l1 IH]; intros [|y l2]; cbn; try discriminate; [reflexivity|].
  pose proof (cmp_component_spec x y) as Hxy.
  pose proof (cmp_component_spec y x) as Hyx.
  destruct (cmp_component x y), (cmp_component y x); try discriminate; auto;
    try (subst; exfalso; eapply component_lt_irrefl; eassumption);
    exfalso; eapply component_lt_irrefl, component_lt_trans; eassumption.
Qed.

Lemma cmp_components_flip' l1 : forall l2,
  cmp_components l1 l2 = Lt -> cmp_components l2 l1 = Gt.
Proof.
  induction l1 as [|x l1 IH]; intros [|y l2]; cbn; try discriminate; [reflexivity|].
  pose proof (cmp_component_spec x y) as Hxy.
  pose proof (cmp_component_spec y x) as Hyx.
  destruct (cmp_component x y), (cmp_component y x); try discriminate; auto;
    try (subst; exfalso; eapply component_lt_irrefl; eassumption);
    exfalso; eapply component_lt_irrefl, component_lt_trans; eassumption.
Qed.

Lemma cmp_components_le_trans l1 : forall l2 l3,
  cmp_components l1 l2 <> Gt -> cmp_components l2 l3 <> Gt -> cmp_components l1 l3 <> Gt.
Proof.
  induction l1 as [|x l1 IH]; intros [|y l2] [|z l3]; cbn; try congruence.
  pose proof (cmp_component_spec x y) as Hxy.
  pose proof (cmp_component_spec y z) as Hyz.
  pose proof (cmp_component_spec x z) as Hxz.
  destruct (cmp_component x y), (cmp_component y z), (cmp_component x z);
    try congruence; subst; intros H1 H2; try (eapply IH; eassumption);
    exfalso;
    first [ eapply component_lt_irrefl; eassumption
          | eapply component_lt_irrefl, component_lt_trans; eassumption
          | eapply component_lt_irrefl, component_lt_trans;
            [eassumption|eapply component_lt_trans; eassumption] ].
Qed.

Lemma components_inj v w : components v = components w -> v = w.
Proof. destruct v as [[[a b] c] d], w as [[[a' b'] c'] d']. cbn. congruence. Qed.

Lemma version_le_total v w : version_le v w \/ version_le w v.
Proof.
  unfold version_le, version_leb.
  destruct (cmp_components (components v) (components w)) eqn:E; auto.
  right. rewrite (cmp_components_flip _ _ E). reflexivity.
Qed.

Lemma version_le_trans u v w : version_le u v -> version_le v w -> version_le u w.
Proof.
  unfold version_le, version_leb. intros H1 H2.
  pose proof (cmp_components_le_trans (components u) (components v) (components w)) as H.
  destruct (cmp_components (components u) (components v)); try discriminate;
    destruct (cmp_components (components v) (components w)); try discriminate;
    destruct (cmp_components (components u) (components w)); try reflexivity;
    exfalso; apply H; congruence.
Qed.

Lemma version_le_antisym v w : version_le v w -> version_le w v -> v = w.
Proof.
  unfold version_le, version_leb. intros H1 H2.
  destruct (cmp_components (components v) (components w)) eqn:E; try discriminate.
  - apply components_inj, cmp_components_Eq, E.
  - rewrite (cmp_components_flip' _ _ E) in H2. discriminate.
Qed.

Lemma insert_sorted_perm v l : insert_sorted v l ≡ₚ v :: l.
Proof.
  induction l as [|w l IH]; cbn [insert_sorted]; [reflexivity|].
  destruct (version_leb v w); [reflexivity|].
  rewrite IH. apply perm_swap.
Qed.

Lemma sort_perm l : sort l ≡ₚ l.
Proof.
  induction l as [|v l IH]; [reflexivity|].
  cbn [sort fold_right]. rewrite insert_sorted_perm. fold (sort l). rewrite IH. reflexivity.
Qed.

Lemma insert_sorted_sorted v l :
  StronglySorted version_le l -> StronglySorted version_le (insert_sorted v l).
Proof.
  induction 1 as [|w l Hl IH Hw]; cbn [insert_sorted].
  - repeat constructor.
  - destruct (version_leb v w) eqn:E.
    + constructor; [constructor; assumption|].
      constructor; [exact E|].
      eapply Forall_impl; [exact Hw|]. intros u Hu. eapply version_le_trans; eassumption.
    + constructor; [exact IH|].
      rewrite insert_sorted_perm. constructor; [|exact Hw].
      destruct (version_le_total v w) as [H|H]; [unfold version_le in H; congruence|exact H].
Qed.

Lemma sort_sorted l : StronglySorted version_le (sort l).
Proof.
  induction l as [|v l IH]; [constructor|].
  cbn [sort fold_right]. apply insert_sorted_sorted, IH.
Qed.

Lemma sorted_perm_unique l1 : forall l2,
  StronglySorted version_le l1 -> StronglySorted version_le l2 -> l1 ≡ₚ l2 -> l1 = l2.
Proof.
  induction l1 as [|v l1 IH]; intros l2 H1 H2 Hp.
  - apply Permutation_nil in Hp. congruence.
  - destruct l2 as [|w l2]; [symmetry in Hp; apply Permutation_nil in Hp; discriminate|].
    inversion H1 as [|? ? H1' Hv]; inversion H2 as [|? ? H2' Hw]; subst.
    assert (Hvw : v = w).
    { assert (Hin1 : v ∈ w :: l2) by (rewrite <- Hp; left).
      assert (Hin2 : w ∈ v :: l1) by (rewrite Hp; left).
      apply elem_of_cons in Hin1 as [?|Hin1]; [assumption|].
      apply elem_of_cons in Hin2 as [?|Hin2]; [congruence|].
      rewrite Forall_forall in Hv, Hw.
      apply version_le_antisym; [apply Hv, Hin2|apply Hw, Hin1]. }
    subst w. f_equal. apply IH; [assumption|assumption|].
    eapply Permutation_cons_inv. exact Hp.
Qed.

(** X11: [sort] returns its input rearranged in ascending order. *)
Theorem sort_is_sorted_permutation (l : list version) :
  sort l ≡ₚ l /\ StronglySorted version_le (sort l).
Proof. split; [apply sort_perm|apply sort_sorted]. Qed.

Lemma sort_same_on_perm l l' : l ≡ₚ l' -> sort l = sort l'.
Proof.
  intros Hp. apply sorted_perm_unique; [apply sort_sorted|apply sort_sorted|].
  rewrite !sort_perm. exact Hp.
Qed.

(** X12: The order of tuples is total and antisymmetric, so the sorted list
    depends only on which candidates there are and how often, not on the
    order they were collected in. *)
Theorem sort_ignores_input_order (l l' : list version) :
  l ≡ₚ l' ->
  sort l = sort l'
  /\ (forall v w, version_le v w \/ version_le w v)
  /\ (forall v w, version_le v w -> version_le w v -> v = w).
Proof.
  intros Hp. split; [apply sort_same_on_perm, Hp|].
  split; [apply version_le_total|apply version_le_antisym].
Qed.

Lemma sort_ignores_input_order_witness :
  sort [(Some 1, Some 2, None, None); (Some 1, None, None, None)]
  = sort [(Some 1, None, None, None); (Some 1, Some 2, None, None)]
  /\ (forall v w, version_le v w \/ version_le w v)
  /\ (forall v w, version_le v w -> version_le w v -> v = w).
Proof.
  apply (sort_ignores_input_order
           [(Some 1, Some 2, None, None); (Some 1, None, None, None)]
           [(Some 1, None, None, None); (Some 1, Some 2, None, None)]).
  apply perm_swap.
Defined.

(** ** What [process] registers *)

Lemma suffixes_Tag x : x ∈ suffixes Tag -> x = lit "GA".
Proof. cbn. intros H. apply elem_of_cons in H as [H|H]; [exact H|inversion H]. Qed.

Lemma process_parsed gr s t sfx st :
  parse gr s = Some (t, sfx) ->
  process (re_match (pattern gr) s) st =
    (Some t,
     match gr with
     | Tag => Classes (is_dev_branch st) ({[ t ]} ∪ is_ga_tag st)
     | Branch =>
         if bool_decide (sfx = [])
         then st
         else Classes ({[ t ]} ∪ is_dev_branch st) (is_ga_tag st)
     end).
Proof.
  unfold parse. destruct (re_match (pattern gr) s) as [m|] eqn:Hm; [|discriminate].
  destruct (match_result gr s m Hm) as (ys & x & _ & _ & _ & _ & H8 & Hx).
  rewrite H8. cbn [default]. intros [= <- <-].
  unfold process, result_of. rewrite H8.
  destruct gr.
  - apply suffixes_Tag in Hx. subst x. reflexivity.
  - cbn [suffixes] in Hx.
    repeat (apply elem_of_cons in Hx as [->|Hx]; [reflexivity|]). inversion Hx.
Qed.

Lemma parse_None gr s : parse gr s = None -> re_match (pattern gr) s = None.
Proof. unfold parse. destruct (re_match (pattern gr) s); [discriminate|reflexivity]. Qed.

(** X13: A tag name registers its tuple as a GA tag and nothing else; a branch
    name registers its tuple as a development branch when it carries one of
    the three suffixes, and nothing at all when it carries none; a name that
    does not match registers nothing. *)
Theorem process_registers_by_suffix (gr : grammar) (s : str) (st : classes) :
  process (re_match (pattern gr) s) st =
    match parse gr s, gr with
    | Some (t, _), Tag => (Some t, Classes (is_dev_branch st) ({[ t ]} ∪ is_ga_tag st))
    | Some (t, sfx), Branch =>
        (Some t, if bool_decide (sfx = []) then st
                 else Classes ({[ t ]} ∪ is_dev_branch st) (is_ga_tag st))
    | None, _ => (None, st)
    end.
Proof.
  destruct (parse gr s) as [[t sfx]|] eqn:Hp.
  - rewrite (process_parsed gr s t sfx st Hp). destruct gr; reflexivity.
  - rewrite (parse_None gr s Hp). destruct gr; reflexivity.
Qed.

(** ** The loops over tags and branches *)

Lemma process_all_fold r names : forall versions st,
  process_all r names versions st = fold_left (process_step r) names (versions, st).
Proof.
  induction names as [|name names IH]; intros versions st; [reflexivity|].
  cbn [process_all fold_left]. unfold bind, process_step at 2. cbn [fst snd].
  destruct (process (re_match r (strip name)) st) as [v st']. apply IH.
Qed.

(** What [process] does to the dictionaries depends on the name alone. *)
Lemma process_effect m :
  exists v D G, forall st,
    process m st = (v, Classes (D ∪ is_dev_branch st) (G ∪ is_ga_tag st)).
Proof.
  destruct m as [m|].
  - unfold process, bind, when, ret.
    destruct (group_in _ _), (group_in _ _); cbn.
    + exists (Some (tuple (process_loop 4 1 m))),
        {[ tuple (process_loop 4 1 m) ]}, {[ tuple (process_loop 4 1 m) ]}.
      intros [d g]. reflexivity.
    + exists (Some (tuple (process_loop 4 1 m))), {[ tuple (process_loop 4 1 m) ]}, ∅.
      intros [d g]. cbn. rewrite (left_id_L ∅ (∪)). reflexivity.
    + exists (Some (tuple (process_loop 4 1 m))), ∅, {[ tuple (process_loop 4 1 m) ]}.
      intros [d g]. cbn. rewrite (left_id_L ∅ (∪)). reflexivity.
    + exists (Some (tuple (process_loop 4 1 m))), ∅, ∅.
      intros [d g]. cbn. rewrite !(left_id_L ∅ (∪)). reflexivity.
  - exists None, ∅, ∅. intros [d g]. cbn. rewrite !(left_id_L ∅ (∪)). reflexivity.
Qed.

Lemma process_step_proper r a b name :
  same_candidates a b -> same_candidates (process_step r a name) (process_step r b name).
Proof.
  intros [Hp Hs]. unfold process_step. rewrite Hs.
  destruct (process (re_match r (strip name)) (snd b)) as [[v|] st']; split; cbn;
    try reflexivity; [rewrite Hp; reflexivity|exact Hp].
Qed.

Lemma process_step_swap r a x y :
  same_candidates (process_step r (process_step r a x) y)
                  (process_step r (process_step r a y) x).
Proof.
  destruct a as [vs st]. unfold process_step. cbn [fst snd].
  destruct (process_effect (re_match r (strip x))) as (vx & Dx & Gx & Hx).
  destruct (process_effect (re_match r (strip y))) as (vy & Dy & Gy & Hy).
  repeat (rewrite ?Hx, ?Hy; cbn [fst snd is_dev_branch is_ga_tag]).
  split; cbn [fst snd].
  - destruct vx, vy; rewrite <- ?app_assoc; try reflexivity.
    apply Permutation_app_head, perm_swap.
  - f_equal; rewrite !(assoc_L (∪)); f_equal; apply (comm_L (∪)).
Qed.

Lemma fold_process_step_perm r names names' :
  names ≡ₚ names' ->
  forall a b, same_candidates a b ->
    same_candidates (fold_left (process_step r) names a) (fold_left (process_step r) names' b).
Proof.
  induction 1 as [|x l l' _ IH|x y l|l l' l'' _ IH1 _ IH2]; intros a b Hab.
  - exact Hab.
  - cbn [fold_left]. apply IH, process_step_proper, Hab.
  - cbn [fold_left].
    assert (Hrefl : forall c d, same_candidates c d ->
              same_candidates (fold_left (process_step r) l c) (fold_left (process_step r) l d)).
    { induction l as [|z l IHl]; intros c d Hcd; [exact Hcd|].
      cbn [fold_left]. apply IHl, process_step_proper, Hcd. }
    apply Hrefl.
    destruct (process_step_swap r b x y) as [Hp Hs].
    destruct (process_step_proper r _ _ x (process_step_proper r a b y Hab)) as [Hp' Hs'].
    split; [rewrite Hp'; symmetry; exact Hp|rewrite Hs'; symmetry; exact Hs].
  - destruct (IH1 a b Hab) as [Hp1 Hs1].
    destruct (IH2 b b (conj (reflexivity _) eq_refl)) as [Hp2 Hs2].
    split; [rewrite Hp1; exact Hp2|rewrite Hs1; exact Hs2].
Qed.

(** X14: The printed version does not depend on the order in which the tags and
    the branches are listed. *)
Theorem mkversion_ignores_listing_order (tags tags' branches branches' : list str)
    (my_branch_name : str) :
  tags ≡ₚ tags' -> branches ≡ₚ branches' ->
  mkversion tags branches my_branch_name = mkversion tags' branches' my_branch_name.
Proof.
  intros Ht Hb. unfold mkversion, mkversion_m, bind.
  destruct (resolve_branch my_branch_name no_classes) as [[my_branch|] st]; [|reflexivity].
  unfold emit_version, bind, get, ret. rewrite !process_all_fold.
  destruct (fold_process_step_perm tag_regexp tags tags' Ht ([], st) ([], st)
              (conj (reflexivity _) eq_refl)) as [Hp Hs].
  destruct (fold_left (process_step tag_regexp) tags ([], st)) as [vs st1].
  destruct (fold_left (process_step tag_regexp) tags' ([], st)) as [vs' st1'].
  cbn [fst snd] in Hp, Hs. subst st1'.
  destruct (terminal my_branch st1); [reflexivity|].
  rewrite !process_all_fold.
  destruct (fold_process_step_perm branch_regexp branches branches' Hb (vs, st1) (vs', st1)
              (conj Hp eq_refl)) as [Hp2 Hs2].
  destruct (fold_left (process_step branch_regexp) branches (vs, st1)) as [ws st2].
  destruct (fold_left (process_step branch_regexp) branches' (vs', st1)) as [ws' st2'].
  cbn [fst snd] in Hp2, Hs2. subst st2'.
  cbn [fst]. rewrite (sort_same_on_perm ws ws' Hp2). reflexivity.
Qed.

Lemma mkversion_ignores_listing_order_witness :
  mkversion ["v1.2GA" : str; "v1.4GA" : str] ["origin/1.next" : str; "origin/2.x" : str] "origin/1.next"
  = mkversion ["v1.4GA" : str; "v1.2GA" : str] ["origin/2.x" : str; "origin/1.next" : str] "origin/1.next".
Proof.
  apply (mkversion_ignores_listing_order
           ["v1.2GA" : str; "v1.4GA" : str] ["v1.4GA" : str; "v1.2GA" : str]
           ["origin/1.next" : str; "origin/2.x" : str] ["origin/2.x" : str; "origin/1.next" : str]);
    apply perm_swap.
Defined.

(** ** Branches that print their own version *)

(** The tag loop leaves the development dictionary alone and records as GA
    only tuples that some tag parses to. *)
Lemma tag_loop_marks tags : forall acc,
  is_dev_branch (snd (fold_left (process_step tag_regexp) tags acc)) = is_dev_branch (snd acc)
  /\ forall v, v ∈ is_ga_tag (snd (fold_left (process_step tag_regexp) tags acc)) ->
       v ∈ is_ga_tag (snd acc)
       \/ exists tag, tag ∈ tags /\ fst <$> parse Tag (strip tag) = Some v.
Proof.
  induction tags as [|tag tags IH]; intros acc; cbn [fold_left]; [auto|].
  destruct (IH (process_step tag_regexp acc tag)) as [Hdev Hga].
  assert (Hstep :
    is_dev_branch (snd (process_step tag_regexp acc tag)) = is_dev_branch (snd acc)
    /\ forall v, v ∈ is_ga_tag (snd (process_step tag_regexp acc tag)) ->
         v ∈ is_ga_tag (snd acc) \/ fst <$> parse Tag (strip tag) = Some v).
  { unfold process_step.
    destruct (parse Tag (strip tag)) as [[t sfx]|] eqn:Hp.
    - rewrite (process_parsed Tag _ t sfx _ Hp). cbn. split; [reflexivity|].
      intros v Hv. apply elem_of_union in Hv as [Hv|Hv]; [|auto].
      apply elem_of_singleton in Hv. subst v. auto.
    - change tag_regexp with (pattern Tag). rewrite (parse_None Tag _ Hp). cbn. auto. }
  destruct Hstep as [Hdev' Hga'].
  split; [rewrite Hdev; exact Hdev'|].
  intros v Hv. apply Hga in Hv as [Hv|(tag' & Hin & Ht)].
  - apply Hga' in Hv as [Hv|Hv]; [auto|].
    right. exists tag. split; [left|exact Hv].
  - right. exists tag'. split; [right; exact Hin|exact Ht].
Qed.

(** X15: A branch whose name carries no development suffix and whose tuple no
    tag names is terminal: the run prints the branch's own version, whatever
    else the tags and the branches are. *)
Theorem plain_untagged_branch_prints_itself (tags branches : list str)
    (my_branch_name : str) (t : version) :
  endswith my_branch_name "/master" = false ->
  parse Branch (strip my_branch_name) = Some (t, []) ->
  (forall tag, tag ∈ tags -> fst <$> parse Tag (strip tag) <> Some t) ->
  mkversion tags branches my_branch_name = Outcome (display t ++ [newline]) "" 0.
Proof.
  intros Hend Hparse Htags.
  unfold mkversion, mkversion_m, resolve_branch, bind. rewrite Hend.
  change branch_regexp with (pattern Branch).
  rewrite (process_parsed Branch _ t [] no_classes Hparse). cbn [bool_decide decide_rel].
  rewrite bool_decide_eq_true_2 by reflexivity.
  unfold emit_version, bind, get, ret. rewrite process_all_fold.
  destruct (tag_loop_marks tags ([], no_classes)) as [Hdev Hga].
  destruct (fold_left (process_step tag_regexp) tags ([], no_classes)) as [vs st1].
  cbn [fst snd] in Hdev, Hga.
  assert (Hterm : terminal t st1 = true).
  { unfold terminal, in_dict. rewrite Hdev.
    rewrite !bool_decide_eq_false_2; [reflexivity| |].
    - intros Hin. apply Hga in Hin as [Hin|(tag & Hin & Ht)].
      + cbn in Hin. set_solver.
      + exact (Htags tag Hin Ht).
    - cbn. set_solver. }
  rewrite Hterm. reflexivity.
Qed.

Lemma plain_untagged_branch_prints_itself_witness :
  mkversion ["v1.2GA" : str; "v1.3.1GA" : str] ["origin/1.next" : str; "origin/1.3" : str] "origin/1.3"
  = Outcome (display (Some 1, Some 3, None, None) ++ [newline]) "" 0.
Proof.
  apply (plain_untagged_branch_prints_itself
           ["v1.2GA" : str; "v1.3.1GA" : str] ["origin/1.next" : str; "origin/1.3" : str]
           "origin/1.3" (Some 1, Some 3, None, None)).
  - reflexivity.
  - vm_compute. reflexivity.
  - intros tag Hin.
    repeat (apply elem_of_cons in Hin as [->|Hin]; [vm_compute; discriminate|]).
    inversion Hin.
Defined.

(** ** The printed version extends the branch's tuple *)

Lemma first_wildcard_spec ref i :
  first_wildcard ref = Some i -> vget ref i = None /\ (i < 4)%nat.
Proof.
  destruct ref as [[[[a|] [b|]] [c|]] [d|]]; cbn; intros [= <-]; split; reflexivity || lia.
Qed.

Lemma vget_vset_other v i j x :
  (i < 4)%nat -> (j < 4)%nat -> i <> j -> vget (vset v i x) j = vget v j.
Proof.
  destruct v as [[[a b] c] d]. intros Hi Hj Hne.
  destruct i as [|[|[|[|i]]]]; try lia; destruct j as [|[|[|[|j]]]]; try lia; reflexivity.
Qed.

Lemma match_keeps_defined ga ref other r :
  is_same_base_version ga ref other = Some r ->
  forall j : nat, (j < 4)%nat -> vget ref j <> None -> vget r j = vget ref j.
Proof.
  destruct (first_wildcard ref) as [i|] eqn:Hi;
    [|rewrite (is_same_base_version_no_wildcard ga ref other Hi); discriminate].
  destruct (first_wildcard_spec ref i Hi) as [Hnone Hlt].
  rewrite (is_same_base_version_at ga ref other i Hi).
  destruct (agree_before i ref other); [|discriminate].
  intros [= <-] j Hj Hdef.
  assert (Hne : i <> j) by (intros ->; contradiction).
  destruct (vget other i); [apply vget_vset_other; assumption|].
  destruct (is_ga ga other); [apply vget_vset_other; assumption|reflexivity].
Qed.

Lemma emit_version_extends tags branches my_branch st :
  exists r,
    fst (emit_version tags branches my_branch st) = Outcome (print (display r)) "" 0
    /\ forall j : nat, (j < 4)%nat -> vget my_branch j <> None -> vget r j = vget my_branch j.
Proof.
  unfold emit_version, bind, get, ret.
  destruct (process_all tag_regexp tags [] st) as [versions st1].
  destruct (terminal my_branch st1); [exists my_branch; split; [reflexivity|auto]|].
  destruct (process_all branch_regexp branches versions st1) as [versions' st2].
  destruct (scan (is_ga_tag st2) my_branch (sort versions') None) as [r|] eqn:Hscan.
  - exists r. split; [reflexivity|].
    apply scan_origin in Hscan as [Hscan|(v & _ & Hv)]; [discriminate|].
    eapply match_keeps_defined; exact Hv.
  - exists my_branch. split; [reflexivity|auto].
Qed.

(** X16: Whenever a version is printed it is the display form of a tuple that
    agrees with the current branch's tuple at every index where that one is
    defined: the run only ever fills in wildcards. *)
Theorem printed_version_extends_branch (tags branches : list str) (my_branch_name : str) :
  bad_branch my_branch_name = false ->
  exists my_branch r,
    fst (resolve_branch my_branch_name no_classes) = Some my_branch
    /\ mkversion tags branches my_branch_name = Outcome (display r ++ [newline]) "" 0
    /\ forall j : nat, (j < 4)%nat -> vget my_branch j <> None -> vget r j = vget my_branch j.
Proof.
  unfold bad_branch, mkversion, mkversion_m, resolve_branch, bind.
  destruct (endswith my_branch_name "/master"); cbn [negb andb].
  - intros _. cbn.
    destruct (emit_version_extends tags branches DEFAULT_MASTER_VERSION
                (Classes ({[DEFAULT_MASTER_VERSION]} ∪ ∅) ∅)) as (r & Hr & Hext).
    exists DEFAULT_MASTER_VERSION, r. split; [reflexivity|]. split; [exact Hr|exact Hext].
  - destruct (re_match branch_regexp (strip my_branch_name)) as [m|].
    + intros _. destruct (process_Some m no_classes) as [st' ->].
      destruct (emit_version_extends tags branches (tuple (process_loop 4 1 m)) st')
        as (r & Hr & Hext).
      exists (tuple (process_loop 4 1 m)), r.
      split; [reflexivity|]. split; [exact Hr|exact Hext].
    + rewrite bool_decide_eq_true_2 by reflexivity. discriminate.
Qed.

Lemma printed_version_extends_branch_witness :
  exists my_branch r,
    fst (resolve_branch "origin/master" no_classes) = Some my_branch
    /\ mkversion ["v3.1GA" : str] [] "origin/master" = Outcome (display r ++ [newline]) "" 0
    /\ forall j : nat, (j < 4)%nat -> vget my_branch j <> None -> vget r j = vget my_branch j.
Proof.
  apply (printed_version_extends_branch ["v3.1GA" : str] [] "origin/master").
  vm_compute. reflexivity.
Defined.

(** ** More on [display] and the grammars *)

Lemma drop_trailing_zeros_idem l :
  drop_trailing_zeros (drop_trailing_zeros l) = drop_trailing_zeros l.
Proof.
  induction l as [|n l IH]; [reflexivity|].
  cbn [drop_trailing_zeros].
  destruct (drop_trailing_zeros l) as [|m r] eqn:E.
  - destruct (Z.eqb_spec n 0) as [->|Hn]; [reflexivity|].
    cbn [drop_trailing_zeros]. destruct (Z.eqb_spec n 0); [contradiction|reflexivity].
  - cbn [drop_trailing_zeros]. cbn [drop_trailing_zeros] in IH. rewrite IH. reflexivity.
Qed.

Lemma defined_prefix_length l : (length (defined_prefix l) <= length l)%nat.
Proof.
  induction l as [|[n|] l IH]; cbn [defined_prefix length]; lia.
Qed.

Lemma normalized_length t :
  (length (drop_trailing_zeros (defined_prefix (components t))) <= 4)%nat.
Proof.
  pose proof (drop_trailing_zeros_length (defined_prefix (components t))).
  pose proof (defined_prefix_length (components t)).
  destruct t as [[[a b] c] d]. cbn [components length] in *. lia.
Qed.

(** X17: Trailing zero components never show: a tuple and the tuple with its
    trailing run of zeros turned into [None] have the same display form, and
    turning them into [None] twice changes nothing more. *)
Theorem display_ignores_trailing_zeros (t : version) :
  display (normalize t) = display t /\ normalize (normalize t) = normalize t.
Proof.
  assert (H : defined_prefix (components (normalize t))
              = drop_trailing_zeros (defined_prefix (components t))).
  { unfold normalize. apply defined_prefix_tuple, normalized_length. }
  split.
  - rewrite !display_is_spec. unfold display_spec.
    rewrite H, drop_trailing_zeros_idem. reflexivity.
  - unfold normalize at 1. rewrite H, drop_trailing_zeros_idem. reflexivity.
Qed.

Lemma str_of_int_nonempty n : str_of_int n <> [].
Proof.
  unfold str_of_int. destruct (Z.ltb_spec n 0); [discriminate|].
  apply str_nonneg_numeral. assumption.
Qed.

Lemma join_nil_inv sep l : Forall (fun x => x <> []) l -> join sep l = [] -> l = [].
Proof.
  intros Hl. destruct l as [|x [|y l]]; [reflexivity| |].
  - cbn. inversion Hl; subst. contradiction.
  - rewrite join_cons. inversion Hl; subst. destruct x; [contradiction|discriminate].
Qed.

Lemma drop_trailing_zeros_nil l :
  drop_trailing_zeros l = [] <-> Forall (fun n => n = 0) l.
Proof.
  induction l as [|n l IH]; cbn [drop_trailing_zeros]; [split; auto|].
  destruct (drop_trailing_zeros l) as [|m r].
  - destruct (Z.eqb_spec n 0) as [->|Hn].
    + split; [intros _; constructor; [reflexivity|apply IH; reflexivity]|reflexivity].
    + split; [discriminate|]. intros H. inversion H; contradiction.
  - split; [discriminate|]. intros H. inversion H as [|? ? _ Hl]; subst.
    apply IH in Hl. discriminate.
Qed.

Lemma display_nil_iff t :
  display t = [] <-> drop_trailing_zeros (defined_prefix (components t)) = [].
Proof.
  rewrite display_is_spec. unfold display_spec. split.
  - intros H. apply join_nil_inv in H.
    + destruct (drop_trailing_zeros _); [reflexivity|discriminate].
    + apply Forall_forall. intros x Hx. apply list_elem_of_In, in_map_iff in Hx as (n & <- & _).
      apply str_of_int_nonempty.
  - intros ->. reflexivity.
Qed.

(** X18: The display form is empty exactly when every component before the first
    [None] is zero. *)
Theorem display_empty_iff_all_zero (t : version) :
  display t = [] <-> Forall (fun n => n = 0) (defined_prefix (components t)).
Proof. rewrite display_nil_iff. apply drop_trailing_zeros_nil. Qed.

Lemma join_version_chars zs :
  Forall (fun c => version_char c = true) (join "." (map str_of_int zs)).
Proof.
  induction zs as [|z [|z' zs] IH]; [constructor|apply str_of_int_chars|].
  cbn [map]. rewrite join_cons.
  apply Forall_app; split; [apply str_of_int_chars|].
  apply Forall_app; split; [repeat constructor|exact IH].
Qed.

(** X19: Writing one to four non-negative numbers as a name of either grammar
    and parsing the name gives back exactly these numbers and the suffix. *)
Theorem written_names_parse_back (gr : grammar) (path : str) (zs : list Z) (sfx : str) :
  zs <> [] -> (length zs <= 4)%nat -> Forall (fun z => 0 <= z) zs ->
  sfx ∈ suffixes gr -> newline ∉ path ->
  parse gr (rebuild gr path (join "." (map str_of_int zs)) sfx)
  = Some (tuple (map Some zs), sfx).
Proof.
  intros Hne Hlen Hall Hsfx Hpath.
  apply parse_rebuild; try assumption.
  apply version_char_no_slash, join_version_chars.
Qed.

Lemma written_names_parse_back_witness :
  parse Branch (rebuild Branch "remotes/origin" (join "." (map str_of_int [10; 0; 7])) "-patch")
  = Some (tuple (map Some [10; 0; 7]), lit "-patch").
Proof.
  apply (written_names_parse_back Branch "remotes/origin" [10; 0; 7] "-patch").
  - discriminate.
  - cbn. lia.
  - repeat constructor; lia.
  - right. right. left.
  - vm_compute. intros H.
    repeat (apply elem_of_cons in H as [H|H]; [discriminate H|]). inversion H.
Defined.

(** X20: Two parsed tuples with the same display form are the same up to their
    trailing zeros. *)
Theorem display_separates_parsed_tuples (gr gr' : grammar) (s s' : str)
    (t t' : version) (sfx sfx' : str) :
  parse gr s = Some (t, sfx) ->
  parse gr' s' = Some (t', sfx') ->
  display t = display t' ->
  normalize t = normalize t'.
Proof.
  intros Hp Hp' Hd.
  destruct (parse_inv gr s t sfx Hp) as (ys & _ & Hlen & Hall & -> & _).
  destruct (parse_inv gr' s' t' sfx' Hp') as (ys' & _ & Hlen' & Hall' & -> & _).
  rewrite !normalize_tuple by assumption.
  pose proof (display_nil_iff (tuple (map Some ys))) as Hn.
  pose proof (display_nil_iff (tuple (map Some ys'))) as Hn'.
  rewrite display_is_spec in Hn. rewrite display_is_spec in Hn'.
  rewrite !display_is_spec in Hd. unfold display_spec in Hd, Hn, Hn'.
  rewrite defined_prefix_tuple in Hn by assumption.
  rewrite defined_prefix_tuple in Hn' by assumption.
  rewrite !defined_prefix_tuple in Hd by assumption.
  destruct (drop_trailing_zeros ys) as [|z zs] eqn:E.
  - assert (E' : drop_trailing_zeros ys' = []) by (apply Hn'; rewrite <- Hd; reflexivity).
    rewrite E'. reflexivity.
  - assert (Hgen : forall l, (length l <= 4)%nat -> Forall (fun y => 0 <= y) l ->
              drop_trailing_zeros l <> [] ->
              parse Tag (rebuild Tag [] (join "." (map str_of_int (drop_trailing_zeros l))) "GA")
              = Some (tuple (map Some (drop_trailing_zeros l)), lit "GA")).
    { intros l Hl Hal Hnz. apply parse_rebuild; try assumption.
      - pose proof (drop_trailing_zeros_length l). lia.
      - apply drop_trailing_zeros_nonneg, Hal.
      - left.
      - inversion 1.
      - apply version_char_no_slash, join_version_chars. }
    assert (E' : drop_trailing_zeros ys' <> []).
    { intros E'. apply Hn' in E'. rewrite <- Hd in E'.
      apply Hn in E'. discriminate. }
    pose proof (Hgen ys Hlen Hall ltac:(rewrite E; discriminate)) as H1.
    pose proof (Hgen ys' Hlen' Hall' E') as H2.
    rewrite E in H1. rewrite Hd, H2 in H1. congruence.
Qed.

Lemma display_separates_parsed_tuples_witness :
  normalize (Some 1, Some 2, Some 0, None) = normalize (Some 1, Some 2, None, None).
Proof.
  apply (display_separates_parsed_tuples Tag Branch "v1.2.0GA" "origin/1.2.x"
           (Some 1, Some 2, Some 0, None) (Some 1, Some 2, None, None) "GA" ".x");
    vm_compute; reflexivity.
Defined.

(** ** [GitQuery] *)

Example build_run :
  mkversion_build (fun args =>
    if bool_decide (args = [lit "tag"]) then Some (lit "v1.2GA
nightly
")
    else if bool_decide (args = [lit "branch"; lit "--all"]) then Some (lit "* 1.next
  remotes/origin/1.next
  remotes/origin/HEAD -> origin/master
")
    else Some (lit "origin/1.next
"))
  = Finished (Outcome (print "1.3") "" 0).
Proof. vm_compute. reflexivity. Qed.

Lemma branches_loop_spec lines : forall branches my_branch,
  branches_loop lines branches my_branch =
    (branches ++ filter remote_line lines,
     match last (filter starred_line lines) with
     | Some l => Some (strip (lstrip_chr "*" l))
     | None => my_branch
     end).
Proof.
  induction lines as [|l lines IH]; intros branches my_branch; cbn [branches_loop].
  - rewrite app_nil_r. reflexivity.
  - destruct (startswith l "*") eqn:Hs.
    + rewrite IH. rewrite (filter_cons_False remote_line) by (unfold remote_line; intros [? _]; congruence).
      rewrite (filter_cons_True starred_line) by exact Hs.
      rewrite last_cons. destruct (last (filter starred_line lines)); reflexivity.
    + rewrite (filter_cons_False starred_line) by (unfold starred_line; congruence).
      case_bool_decide as Hin.
      * rewrite IH, (filter_cons_True remote_line) by (split; assumption).
        rewrite <- app_assoc. reflexivity.
      * rewrite IH, (filter_cons_False remote_line) by (intros [_ ?]; contradiction).
        reflexivity.
Qed.

(** X21: [GitQuery.branches] registers, in their order, exactly the lines of
    [git branch --all] that contain a slash and do not start with a star; the
    current branch is read off the last starred line, with the stars and the
    surrounding blanks removed, and is replaced by what
    [git rev-parse --abbrev-ref <name>@{upstream}] prints, stripped. *)
Theorem branches_are_the_remote_lines
    (git : list (list ascii) -> option (list ascii))
    (branches : list (list ascii)) (my_branch : option (list ascii)) :
  GitQuery_branches git = Some (branches, my_branch) ->
  exists out,
    git [lit "branch"; lit "--all"] = Some out
    /\ branches = filter remote_line (split_on newline out)
    /\ match last (filter starred_line (split_on newline out)) with
       | None => my_branch = None
       | Some l =>
           exists upstream,
             git [lit "rev-parse"; lit "--abbrev-ref";
                  strip (lstrip_chr "*" l) ++ "@{upstream}"] = Some upstream
             /\ my_branch = Some (strip upstream)
       end.
Proof.
  unfold GitQuery_branches.
  destruct (git [lit "branch"; lit "--all"]) as [out|]; [|discriminate].
  rewrite branches_loop_spec. cbn [app].
  intros H. exists out. split; [reflexivity|].
  destruct (last (filter starred_line (split_on newline out))) as [l|].
  - destruct (git _) as [upstream|] eqn:Hup; [|discriminate].
    injection H as <- <-. split; [reflexivity|]. exists upstream. split; reflexivity.
  - injection H as <- <-. split; reflexivity.
Qed.

Lemma branches_are_the_remote_lines_witness :
  exists out,
    (fun args : list (list ascii) => Some (lit "  a/1.2")) [lit "branch"; lit "--all"] = Some out
    /\ [lit "  a/1.2"] = filter remote_line (split_on newline out)
    /\ match last (filter starred_line (split_on newline out)) with
       | None => (None : option (list ascii)) = None
       | Some l =>
           exists upstream,
             (fun args : list (list ascii) => Some (lit "  a/1.2"))
               [lit "rev-parse"; lit "--abbrev-ref";
                strip (lstrip_chr "*" l) ++ "@{upstream}"] = Some upstream
             /\ (None : option (list ascii)) = Some (strip upstream)
       end.
Proof.
  apply (branches_are_the_remote_lines (fun _ => Some (lit "  a/1.2")) [lit "  a/1.2"] None).
  vm_compute. reflexivity.
Defined.

(** X22: In build mode, when both listings succeed and no line of
    [git branch --all] starts with a star, no upstream is asked for and the
    run ends in the [AttributeError] of [None.endswith]: nothing is
    printed. *)
Theorem no_starred_line_raises
    (git : list (list ascii) -> option (list ascii)) (tags_out branches_out : str) :
  git [lit "tag"] = Some tags_out ->
  git [lit "branch"; lit "--all"] = Some branches_out ->
  Forall (fun l => startswith l "*" = false) (split_on newline branches_out) ->
  mkversion_build git = AttributeError.
Proof.
  intros Ht Hb Hno. unfold mkversion_build, GitQuery_tags, GitQuery_branches.
  rewrite Ht, Hb. cbn [fmap option_fmap option_map].
  rewrite branches_loop_spec.
  assert (Hs : filter starred_line (split_on newline branches_out) = []).
  { induction Hno as [|l lines Hl _ IH]; [reflexivity|].
    rewrite (filter_cons_False starred_line) by (unfold starred_line; congruence).
    exact IH. }
  rewrite Hs. reflexivity.
Qed.

Lemma no_starred_line_raises_witness :
  mkversion_build (fun args =>
    if bool_decide (args = [lit "tag"]) then Some (lit "v1GA") else Some (lit "  origin/1.x"))
  = AttributeError.
Proof.
  apply (no_starred_line_raises _ "v1GA" "  origin/1.x").
  - reflexivity.
  - reflexivity.
  - vm_compute. repeat constructor.
Defined.

(** ** A tagged branch moves on *)

Lemma process_step_cases gr acc name :
  process_step (pattern gr) acc name =
    match parse gr (strip name) with
    | Some (t, sfx) =>
        (fst acc ++ [t],
         match gr with
         | Tag => Classes (is_dev_branch (snd acc)) ({[ t ]} ∪ is_ga_tag (snd acc))
         | Branch =>
             if bool_decide (sfx = []) then snd acc
             else Classes ({[ t ]} ∪ is_dev_branch (snd acc)) (is_ga_tag (snd acc))
         end)
    | None => acc
    end.
Proof.
  unfold process_step. destruct (parse gr (strip name)) as [[t sfx]|] eqn:Hp.
  - rewrite (process_parsed gr _ t sfx _ Hp). reflexivity.
  - rewrite (parse_None gr _ Hp). destruct acc; reflexivity.
Qed.

Lemma loop_shapes gr names : forall acc,
  Forall parsed_shape (fst acc) ->
  Forall parsed_shape (fst (fold_left (process_step (pattern gr)) names acc)).
Proof.
  induction names as [|name names IH]; intros acc Hacc; cbn [fold_left]; [exact Hacc|].
  apply IH. rewrite process_step_cases.
  destruct (parse gr (strip name)) as [[t sfx]|] eqn:Hp; [|exact Hacc].
  cbn [fst]. apply Forall_app; split; [exact Hacc|].
  repeat constructor.
  destruct (parse_inv gr _ t sfx Hp) as (ys & H1 & H2 & H3 & H4 & _).
  exists ys. auto.
Qed.

Lemma loop_keeps gr names t : forall acc,
  t ∈ fst acc -> t ∈ is_ga_tag (snd acc) ->
  t ∈ fst (fold_left (process_step (pattern gr)) names acc)
  /\ t ∈ is_ga_tag (snd (fold_left (process_step (pattern gr)) names acc)).
Proof.
  induction names as [|name names IH]; intros acc H1 H2; cbn [fold_left]; [auto|].
  apply IH; rewrite process_step_cases;
    destruct (parse gr (strip name)) as [[t' sfx]|]; try assumption; cbn [fst snd].
  - apply elem_of_app. left. exact H1.
  - destruct gr; [cbn; apply elem_of_union; right; exact H2|].
    destruct (bool_decide (sfx = [])); [exact H2|exact H2].
Qed.

Lemma tag_loop_registers tags t : forall acc,
  (exists tag, tag ∈ tags /\ fst <$> parse Tag (strip tag) = Some t) ->
  t ∈ fst (fold_left (process_step tag_regexp) tags acc)
  /\ t ∈ is_ga_tag (snd (fold_left (process_step tag_regexp) tags acc)).
Proof.
  induction tags as [|tag tags IH]; intros acc (tag' & Hin & Ht); [inversion Hin|].
  cbn [fold_left]. apply elem_of_cons in Hin as [->|Hin].
  - change tag_regexp with (pattern Tag). apply loop_keeps;
      rewrite process_step_cases;
      destruct (parse Tag (strip tag)) as [[t' sfx]|]; try discriminate;
      cbn in Ht; injection Ht as ->; cbn [fst snd].
    + apply elem_of_app. right. left.
    + cbn. apply elem_of_union. left. apply elem_of_singleton. reflexivity.
  - apply IH. eauto.
Qed.

Lemma branch_loop_keeps_ga branches : forall acc,
  is_ga_tag (snd (fold_left (process_step branch_regexp) branches acc)) = is_ga_tag (snd acc).
Proof.
  induction branches as [|b branches IH]; intros acc; cbn [fold_left]; [reflexivity|].
  rewrite IH. change branch_regexp with (pattern Branch). rewrite process_step_cases.
  destruct (parse Branch (strip b)) as [[t sfx]|]; [|reflexivity].
  cbn [snd]. destruct (bool_decide (sfx = [])); reflexivity.
Qed.

(** Among parsed tuples, the only candidate that matches [t] and is
    undefined at the first wildcard of [t] is [t] itself. *)
Lemma same_base_no_more t v i :
  parsed_shape t -> parsed_shape v ->
  first_wildcard t = Some i -> agree_before i t v = true -> vget v i = None -> v = t.
Proof.
  intros (ys & _ & Hl & _ & ->) (zs & _ & Hl' & _ & ->) Hi Hagree Hv.
  unfold agree_before in Hagree. apply bool_decide_eq_true in Hagree.
  destruct ys as [|y1 [|y2 [|y3 [|y4 [|y5 ys]]]]]; try (cbn in Hl; lia);
    cbn in Hi; try discriminate Hi; injection Hi as <-;
    destruct zs as [|z1 [|z2 [|z3 [|z4 [|z5 zs]]]]]; try (cbn in Hl'; lia);
    cbn in Hagree, Hv; try discriminate Hv; simplify_eq; reflexivity.
Qed.

Lemma parsed_component_nonneg v i o : parsed_shape v -> vget v i = Some o -> 0 <= o.
Proof.
  intros (ys & _ & Hl & Hall & ->) Ho.
  rewrite vget_tuple, lookup_map_Some in Ho.
  destruct (ys !! Nat.min i 3) as [y|] eqn:E; [|discriminate].
  cbn in Ho. injection Ho as ->.
  rewrite Forall_forall in Hall. apply Hall.
  eapply list_elem_of_lookup_2. exact E.
Qed.

(** X23: A branch whose tuple has a wildcard and is named by a GA tag never builds
    as that released version: the run prints the tuple with a number of at
    least 1 at its first wildcard. *)
Theorem tagged_branch_moves_on (tags branches : list str) (my_branch_name : str)
    (t : version) (sfx : str) (i : nat) :
  endswith my_branch_name "/master" = false ->
  parse Branch (strip my_branch_name) = Some (t, sfx) ->
  first_wildcard t = Some i ->
  (exists tag, tag ∈ tags /\ fst <$> parse Tag (strip tag) = Some t) ->
  exists k, 1 <= k
    /\ mkversion tags branches my_branch_name
       = Outcome (display (vset t i (Some k)) ++ [newline]) "" 0.
Proof.
  intros Hend Hparse Hi Htag.
  assert (Ht : parsed_shape t).
  { destruct (parse_inv Branch _ t sfx Hparse) as (ys & H1 & H2 & H3 & H4 & _).
    exists ys. auto. }
  unfold mkversion, mkversion_m, resolve_branch, bind. rewrite Hend.
  change branch_regexp with (pattern Branch).
  rewrite (process_parsed Branch _ t sfx no_classes Hparse).
  set (st0 := if bool_decide (sfx = []) then no_classes else _).
  unfold emit_version, bind, get, ret. rewrite process_all_fold.
  destruct (tag_loop_registers tags t ([], st0) Htag) as [Hin1 Hga1].
  pose proof (loop_shapes Tag tags ([], st0) (Forall_nil_2 _)) as Hsh1.
  cbn [pattern] in Hsh1.
  destruct (fold_left (process_step tag_regexp) tags ([], st0)) as [vs st1].
  cbn [fst snd] in Hin1, Hga1, Hsh1.
  assert (Hterm : terminal t st1 = false).
  { unfold terminal. rewrite (proj2 (in_dict_true t (is_ga_tag st1)) Hga1).
    apply andb_false_r. }
  rewrite Hterm, process_all_fold.
  pose proof (branch_loop_keeps_ga branches (vs, st1)) as Hga2.
  pose proof (loop_shapes Branch branches (vs, st1) Hsh1) as Hsh2.
  destruct (loop_keeps Branch branches t (vs, st1) Hin1 Hga1) as [Hin2 _].
  cbn [pattern] in Hsh2, Hin2.
  destruct (fold_left (process_step branch_regexp) branches (vs, st1)) as [ws st2].
  cbn [fst snd] in Hga2, Hsh2, Hin2. rewrite Hga2.
  assert (Htga : is_ga (is_ga_tag st1) t = true).
  { destruct t as [[[a b] c] d]. rewrite is_ga_unfold.
    rewrite (proj2 (in_dict_true _ _) Hga1). reflexivity. }
  destruct (scan (is_ga_tag st1) t (sort ws) None) as [r|] eqn:Hscan.
  - apply scan_origin in Hscan as [Hscan|(v & Hv & Hr)]; [discriminate|].
    rewrite sort_perm in Hv.
    assert (Hvs : parsed_shape v) by (rewrite Forall_forall in Hsh2; apply Hsh2, Hv).
    rewrite (is_same_base_version_at _ t v i Hi) in Hr.
    destruct (agree_before i t v) eqn:Hagree; [|discriminate].
    injection Hr as <-. cbn [default].
    destruct (vget v i) as [o|] eqn:Ho.
    + exists (o + 1). split; [|reflexivity].
      pose proof (parsed_component_nonneg v i o Hvs Ho). lia.
    + rewrite (same_base_no_more t v i Ht Hvs Hi Hagree Ho), Htga.
      exists 1. split; [lia|reflexivity].
  - apply scan_None_inv in Hscan. rewrite Forall_forall in Hscan.
    assert (Hno : no_match (is_ga_tag st1) t t) by (apply Hscan; rewrite sort_perm; exact Hin2).
    unfold no_match in Hno. rewrite (is_same_base_version_at _ t t i Hi) in Hno.
    unfold agree_before in Hno. rewrite bool_decide_eq_true_2 in Hno by reflexivity.
    discriminate.
Qed.

Lemma tagged_branch_moves_on_witness :
  exists k, 1 <= k
    /\ mkversion ["v2GA" : str; "v2.4GA" : str] ["origin/2" : str] "origin/2"
       = Outcome (display (vset (Some 2, None, None, None) 1 (Some k)) ++ [newline]) "" 0.
Proof.
  apply (tagged_branch_moves_on ["v2GA" : str; "v2.4GA" : str] ["origin/2" : str] "origin/2"
           (Some 2, None, None, None) "" 1).
  - reflexivity.
  - vm_compute. reflexivity.
  - reflexivity.
  - exists (lit "v2GA"). split; [left|vm_compute; reflexivity].
Defined.
